(** * goexif/tiff: the TIFF structural decoder

    A shallow embedding of [tiff.go] (package [tiff]): the two entry points
    [Decode] and [DecodeFile], the directory decoder [DecodeDir], and the parts
    of Go's [bytes], [io] and [encoding/binary] packages they call.

    Conventions.
    - A Go pointer result [*T] is an [option T] ([nil] is [None]); a Go
      [error] result is an [option error].
    - Fixed-width integers are [Z]; conversions between widths are written out.
    - A [for] loop that the Go compiler cannot bound is a step function on the
      loop state, iterated with fuel: [None] means "has not returned yet". *)

From Stdlib Require Import ZArith List Bool Lia.
From Stdlib Require Import Strings.String Strings.Ascii Strings.Byte.
Import ListNotations.
Local Open Scope Z_scope.

(** ** Go values *)

Definition ptr (A : Type) : Type := option A.

Inductive error : Type :=
| errors_New (msg : string).

Definition Error (e : error) : string :=
  match e with errors_New msg => msg end.

(** [io.EOF] and [io.ErrUnexpectedEOF]. *)
Definition io_EOF : error := errors_New "EOF".
Definition io_ErrUnexpectedEOF : error := errors_New "unexpected EOF".

Definition len {A : Type} (l : list A) : Z := Z.of_nat (List.length l).

(** [l[p:]] for a non-negative [p]; empty when [p] is past the end. *)
Definition from {A : Type} (p : Z) (l : list A) : list A :=
  skipn (Z.to_nat p) l.

Fixpoint bytes_eqb (a b : list byte) : bool :=
  match a, b with
  | [], [] => true
  | x :: a', y :: b' => Byte.eqb x y && bytes_eqb a' b'
  | _, _ => false
  end.

(** [string(bo) == lit] *)
Definition string_eq (bo : list byte) (lit : string) : bool :=
  bytes_eqb bo (list_byte_of_string lit).

(** ** encoding/binary *)

Inductive ByteOrder : Type := LittleEndian | BigEndian.

Definition u8 (b : list byte) (k : nat) : Z :=
  Z.of_N (Byte.to_N (nth k b "000"%byte)).

Definition Uint16 (order : ByteOrder) (b : list byte) : Z :=
  match order with
  | LittleEndian => Z.lor (u8 b 0) (Z.shiftl (u8 b 1) 8)
  | BigEndian => Z.lor (u8 b 1) (Z.shiftl (u8 b 0) 8)
  end.

Definition Uint32 (order : ByteOrder) (b : list byte) : Z :=
  match order with
  | LittleEndian =>
      Z.lor (Z.lor (Z.lor (u8 b 0) (Z.shiftl (u8 b 1) 8))
                   (Z.shiftl (u8 b 2) 16)) (Z.shiftl (u8 b 3) 24)
  | BigEndian =>
      Z.lor (Z.lor (Z.lor (u8 b 3) (Z.shiftl (u8 b 2) 8))
                   (Z.shiftl (u8 b 1) 16)) (Z.shiftl (u8 b 0) 24)
  end.

(** The conversion [int16(x)] of a [uint16]. *)
Definition int16 (x : Z) : Z :=
  let m := x mod 65536 in
  if m <? 32768 then m else m - 65536.

(** ** bytes.Reader

    [s] is the underlying slice and [i] the current reading index (an
    [int64]; it can lie past the end of [s] after a [Seek]). *)

Record Reader : Type := mkReader { s : list byte; i : Z }.

Definition bytes_NewReader (b : list byte) : Reader := mkReader b 0.

Definition Reader_Len (r : Reader) : Z :=
  if len (s r) <=? i r then 0 else len (s r) - i r.

(** [r.Seek(offset, 0)] *)
Definition Reader_Seek (r : Reader) (offset : Z) : Reader * Z * option error :=
  if offset <? 0
  then (r, 0, Some (errors_New "bytes.Reader.Seek: negative position"))
  else (mkReader (s r) offset, offset, None).

(** [r.ReadAt(b, off)] with [len(b) = n]; the reading index is not moved. *)
Definition Reader_ReadAt (r : Reader) (n : nat) (off : Z)
  : list byte * option error :=
  if off <? 0
  then ([], Some (errors_New "bytes.Reader.ReadAt: negative offset"))
  else if len (s r) <=? off then ([], Some io_EOF)
  else
    let b := firstn n (from off (s r)) in
    (b, if (List.length b <? n)%nat then Some io_EOF else None).

(** [io.ReadFull(r, buf)] with [len(buf) = n]: [Read] is called until [n]
    bytes have arrived or the reader is at its end. A short read leaves the
    index at the end of the slice. *)
Definition io_ReadFull (r : Reader) (n : nat) : Reader * list byte * option error :=
  let b := firstn n (from (i r) (s r)) in
  (mkReader (s r) (i r + len b), b,
   if (List.length b =? n)%nat then None
   else if (List.length b =? 0)%nat then Some io_EOF
        else Some io_ErrUnexpectedEOF).

(** [binary.Read(r, order, &x)] for [x int16] and for [x uint32]: the fixed
    size is read with [io.ReadFull] and decoded under [order]; on a short read
    [x] keeps its zero value. *)
Definition binary_Read_int16 (r : Reader) (order : ByteOrder)
  : Reader * Z * option error :=
  let '(r', bs, err) := io_ReadFull r 2 in
  match err with
  | Some e => (r', 0, Some e)
  | None => (r', int16 (Uint16 order bs), None)
  end.

Definition binary_Read_uint32 (r : Reader) (order : ByteOrder)
  : Reader * Z * option error :=
  let '(r', bs, err) := io_ReadFull r 4 in
  match err with
  | Some e => (r', 0, Some e)
  | None => (r', Uint32 order bs, None)
  end.

(** [ioutil.ReadAll(r)] for an [io.Reader]: the bytes it delivers and the
    error, if any, that ended the stream ([None] for a clean end). *)
Record io_Reader : Type := mkStream { delivered : list byte; fault : option error }.

Definition ioutil_ReadAll (r : io_Reader) : list byte * option error :=
  (delivered r, fault r).

(** A stream held in memory: reading it never fails. *)
Definition stream (data : list byte) : io_Reader := mkStream data None.

(** ** os.File: a regular file, its content and its current position.

    [read_err] is what a [Read] reports once the bytes of [content] have been
    delivered: [None] for a clean end of file, [Some e] for a device that
    fails with [e] there. *)

Record File : Type := mkFile {
  content : list byte;
  pos : Z;
  read_err : option error
}.

(** A file that holds [data] and reads without fault, positioned at 0. *)
Definition os_Open (data : list byte) : File := mkFile data 0 None.

(** [io.ReadFull(f, buf)] with [len(buf) = n]: a short read gives the error
    of the failing [Read], or [io.EOF] / [io.ErrUnexpectedEOF] at a clean
    end. *)
Definition File_ReadFull (f : File) (n : nat) : File * list byte * option error :=
  let b := firstn n (from (pos f) (content f)) in
  (mkFile (content f) (pos f + len b) (read_err f), b,
   if (List.length b =? n)%nat then None
   else match read_err f with
        | Some e => Some e
        | None => if (List.length b =? 0)%nat then Some io_EOF
                  else Some io_ErrUnexpectedEOF
        end).

(** [f.Seek(offset, 0)]; a regular file accepts any non-negative position. *)
Definition File_Seek (f : File) (offset : Z) : File * Z * option error :=
  if offset <? 0
  then (f, 0, Some (errors_New "seek: invalid argument"))
  else (mkFile (content f) offset (read_err f), offset, None).

(** [ioutil.ReadAll(f)]: the bytes up to the end, and the error that ended
    the reading when it was not a clean end of file. *)
Definition File_ReadAll (f : File) : File * list byte * option error :=
  let b := from (pos f) (content f) in
  (mkFile (content f) (pos f + len b) (read_err f), b, read_err f).

(** ** The data model of tiff.go *)

(** Modelled from the spec: the typed values and the [Tag] of section 3
    (tag.go, which declares them, is not among the sources). *)
Inductive Value : Type :=
| IntVal (v : Z)
| RatVal (num den : Z)
| FloatBits (bits : Z)
| OpaqueByte (v : Z).

Record Tag : Type := mkTag {
  Id : Z;
  Type_ : Z;
  Count : Z;
  Vals : list Value
}.

Record Dir : Type := mkDir { Tags : list (ptr Tag) }.

Record Tiff : Type := mkTiff { Dirs : list (ptr Dir); Order : ByteOrder }.

(** What a Go function returning a [Tiff] pointer and an [error] gives back. *)
Definition TiffResult : Type := ptr Tiff * option error.

(** ** Loops that need fuel *)

Section Walk.
Variable State : Type.

Inductive Outcome : Type :=
| Running (st : State)
| Returned (res : TiffResult).

Variable iter : State -> Outcome.

(** Run the loop: [None] when [fuel] iterations were not enough. *)
Fixpoint walk (fuel : nat) (st : State) : option TiffResult :=
  match iter st with
  | Returned res => Some res
  | Running st' =>
      match fuel with
      | O => None
      | S fuel' => walk fuel' st'
      end
  end.

(** The loop state at the head of iteration [n], when the loop gets there. *)
Fixpoint head_of_iteration (n : nat) (st : State) : option State :=
  match n with
  | O => Some st
  | S n' =>
      match iter st with
      | Returned _ => None
      | Running st' => head_of_iteration n' st'
      end
  end.
End Walk.

Arguments Running {State} st.
Arguments Returned {State} res.

(** ** DecodeDir, Decode and DecodeFile

    [DecodeTag] lives in a file of the package that is not part of this
    development's sources; the directory and chain walkers are embedded over
    an arbitrary tag decoder of [DecodeTag]'s signature. *)

(** The state of a chain walk: the reader, the offset the loop tests
    ([offset] in [Decode], [next_offset] in [DecodeFile]), [prev], and
    [t.Dirs]. *)
Record WalkState : Type := mkWalk {
  w_buf : Reader;
  w_offset : Z;
  w_prev : Z;
  w_Dirs : list (ptr Dir)
}.

(** [DecodeTag] receives the reader as a [ReadAtReader], whose two methods
    are [Read], which moves the reading index forward, and [ReadAt], which
    leaves it alone: what a call does to the reader is the number of bytes it
    consumed. *)
Definition TagDecoder : Type :=
  Reader -> ByteOrder -> Z -> nat * (ptr Tag * option error).

Definition Reader_advance (r : Reader) (n : nat) : Reader :=
  mkReader (s r) (i r + Z.of_nat n).

Section Decoder.
Variable DecodeTag : TagDecoder.

(** The loop [for n := 0; n < int(nTags); n++] of [DecodeDir], with [k]
    iterations left. *)
Fixpoint DecodeDir_tags (k : nat) (r : Reader) (order : ByteOrder)
  (position_offset : Z) (tags : list (ptr Tag))
  : Reader * list (ptr Tag) * option error :=
  match k with
  | O => (r, tags, None)
  | S k' =>
      let '(n, (t, err)) := DecodeTag r order position_offset in
      let r' := Reader_advance r n in
      match err with
      | Some e => (r', tags, Some e)
      | None => DecodeDir_tags k' r' order position_offset (tags ++ [t])
      end
  end.

Definition DecodeDir (r : Reader) (order : ByteOrder) (position_offset : Z)
  : Reader * (ptr Dir * Z * option error) :=
  (* get num of tags in ifd *)
  let '(r1, nTags, err) := binary_Read_int16 r order in
  match err with
  | Some e =>
      (r1, (None, 0,
            Some (errors_New ("tiff: failed to read IFD tag count: " ++ Error e))))
  | None =>
      (* load tags *)
      let '(r2, tags, err) :=
        DecodeDir_tags (Z.to_nat nTags) r1 order position_offset [] in
      match err with
      | Some e => (r2, (None, 0, Some e))
      | None =>
          (* get offset to next ifd *)
          let '(r3, offset, err) := binary_Read_uint32 r2 order in
          match err with
          | Some e =>
              (r3, (None, 0,
                    Some (errors_New
                            ("tiff: falied to read offset to next IFD: " ++ Error e))))
          | None => (r3, (Some (mkDir tags), offset, None))
          end
      end
  end.

(** One turn of [for offset != 0 { ... }] in [Decode]. *)
Definition Decode_iter (order : ByteOrder) (st : WalkState) : Outcome WalkState :=
  if w_offset st =? 0 then Returned (Some (mkTiff (w_Dirs st) order), None)
  else
    (* seek to offset *)
    let '(buf, _, err) := Reader_Seek (w_buf st) (w_offset st) in
    match err with
    | Some _ => Returned (None, Some (errors_New "tiff: seek to IFD failed"))
    | None =>
        if Reader_Len buf =? 0
        then Returned (None, Some (errors_New "tiff: seek offset after EOF"))
        else
          (* load the dir *)
          let '(buf', (d, offset, err)) := DecodeDir buf order 0 in
          match err with
          | Some e => Returned (None, Some e)
          | None =>
              if offset =? w_prev st
              then Returned (None, Some (errors_New "tiff: recursive IFD"))
              else Running (mkWalk buf' offset offset (w_Dirs st ++ [d]))
          end
    end.

Definition Decode (fuel : nat) (r : io_Reader) : option TiffResult :=
  let '(data, err) := ioutil_ReadAll r in
  match err with
  | Some _ => Some (None, Some (errors_New "tiff: could not read data"))
  | None =>
      let buf := bytes_NewReader data in
      (* read byte order *)
      let '(buf, bo, err) := io_ReadFull buf 2 in
      match err with
      | Some _ => Some (None, Some (errors_New "tiff: could not read tiff byte order"))
      | None =>
          match (if string_eq bo "II" then Some LittleEndian
                 else if string_eq bo "MM" then Some BigEndian
                      else None) with
          | None => Some (None, Some (errors_New "tiff: could not read tiff byte order"))
          | Some order =>
              (* check for special tiff marker *)
              let '(buf, sp, err) := binary_Read_int16 buf order in
              if match err with Some _ => true | None => false end
                 || negb (42 =? sp)
              then Some (None, Some (errors_New "tiff: could not find special tiff marker"))
              else
                (* load offset to first IFD *)
                let '(buf, offset, err) := binary_Read_uint32 buf order in
                match err with
                | Some _ =>
                    Some (None, Some (errors_New "tiff: could not read offset to first IFD"))
                | None =>
                    (* load IFD's *)
                    walk WalkState (Decode_iter order) fuel
                      (mkWalk buf offset offset [])
                end
          end
      end
  end.

(** One turn of [for next_offset != 0 { ... }] in [DecodeFile]. *)
Definition DecodeFile_iter (order : ByteOrder) (offset0 : Z) (st : WalkState)
  : Outcome WalkState :=
  if w_offset st =? 0 then Returned (Some (mkTiff (w_Dirs st) order), None)
  else
    (* load the dir *)
    let '(buf', (d, next_offset, err)) := DecodeDir (w_buf st) order offset0 in
    match err with
    | Some e => Returned (None, Some e)
    | None =>
        if next_offset =? w_prev st
        then Returned (None, Some (errors_New "tiff: recursive IFD"))
        else Running (mkWalk buf' next_offset next_offset (w_Dirs st ++ [d]))
    end.

Definition DecodeFile (fuel : nat) (f : File) : option TiffResult :=
  (* read byte order *)
  let '(f, bo, err) := File_ReadFull f 2 in
  match err with
  | Some _ => Some (None, Some (errors_New "tiff: could not read tiff byte order"))
  | None =>
      match (if string_eq bo "II" then Some LittleEndian
             else if string_eq bo "MM" then Some BigEndian
                  else None) with
      | None => Some (None, Some (errors_New "tiff: could not read tiff byte order"))
      | Some order =>
          (* check for special tiff marker *)
          let '(f, spbuf, err) := File_ReadFull f 2 in
          match err with
          | Some _ =>
              Some (None, Some (errors_New "tiff: could not read special tiff marker"))
          | None =>
              let '(_, sp, err) := binary_Read_int16 (bytes_NewReader spbuf) order in
              if match err with Some _ => true | None => false end
                 || negb (42 =? sp)
              then Some (None, Some (errors_New "tiff: could not find special tiff marker"))
              else
                (* load offset to first IFD *)
                let '(f, offsetbuf, err) := File_ReadFull f 4 in
                match err with
                | Some _ =>
                    Some (None, Some (errors_New "tiff: could not read offset of 1st IFD"))
                | None =>
                    let '(_, offset0, err) :=
                      binary_Read_uint32 (bytes_NewReader offsetbuf) order in
                    match err with
                    | Some _ =>
                        Some (None,
                              Some (errors_New "tiff: could not read offset to first IFD"))
                    | None =>
                        (* seek to offset *)
                        let '(f, _, err) := File_Seek f offset0 in
                        match err with
                        | Some _ =>
                            Some (None, Some (errors_New "tiff: seek to IFD failed"))
                        | None =>
                            (* the rest of the file; ReadAll's error is dropped *)
                            let '(_, data, _) := File_ReadAll f in
                            let buf := bytes_NewReader data in
                            (* load IFD's *)
                            walk WalkState (DecodeFile_iter order offset0) fuel
                              (mkWalk buf offset0 offset0 [])
                        end
                    end
                end
          end
      end
  end.

(** Where the two walks start once the 8-byte header gave [offset0]:
    [Decode] keeps reading the whole stream, whose index is then 8;
    [DecodeFile] reads a fresh window that begins at [offset0]. *)
Definition Decode_start (data : list byte) (offset0 : Z) : WalkState :=
  mkWalk (mkReader data 8) offset0 offset0 [].

Definition DecodeFile_start (data : list byte) (offset0 : Z) : WalkState :=
  mkWalk (bytes_NewReader (from offset0 data)) offset0 offset0 [].

(** [tags_decoded order base r ts r']: starting at [r], successive calls of
    [DecodeTag] succeed and give the tags [ts], in this order, each call
    starting where the one before stopped; the last one stops at [r']. *)
Inductive tags_decoded (order : ByteOrder) (base : Z)
  : Reader -> list (ptr Tag) -> Reader -> Prop :=
| tags_decoded_nil (r : Reader) : tags_decoded order base r [] r
| tags_decoded_cons (r r2 : Reader) (n : nat) (t : ptr Tag) (ts : list (ptr Tag)) :
    DecodeTag r order base = (n, (t, None)) ->
    tags_decoded order base (Reader_advance r n) ts r2 ->
    tags_decoded order base r (t :: ts) r2.
End Decoder.

(** ** The tag decoder *)

(** tag.go, which defines [Tag] and [DecodeTag], is not among the sources of
    this development: what follows is modelled from the spec, sections 3,
    4.2, 4.5 and 7. *)

(** Modelled from the spec: the two failures of [DecodeTag] that section 7
    names, a short read (truncated structure) and a value offset outside the
    window (unresolvable reference). The spec gives no message texts. *)
Definition ErrTruncatedStructure : error := errors_New "truncated structure".
Definition ErrUnresolvableReference : error := errors_New "unresolvable reference".

(** Modelled from the spec: the size in bytes of one value of each type of
    section 3, under the type codes 1 to 12 of TIFF 6.0, which follow the
    order in which the spec lists the types; an unknown code counts as opaque
    bytes. *)
Definition typeSize (ty : Z) : Z :=
  match ty with
  | 1 | 2 | 6 | 7 => 1
  | 3 | 8 => 2
  | 4 | 9 | 11 => 4
  | 5 | 10 | 12 => 8
  | _ => 1
  end.

(** Modelled from the spec: the 12-byte directory entry of section 4.2, a
    2-byte id, a 2-byte type code, a 4-byte count and a 4-byte slot. *)
Record Entry : Type := mkEntry {
  e_id : Z;
  e_type : Z;
  e_count : Z;
  e_slot : list byte
}.

Definition parse_entry (order : ByteOrder) (b : list byte) : Entry :=
  mkEntry (Uint16 order (firstn 2 b))
          (Uint16 order (firstn 2 (skipn 2 b)))
          (Uint32 order (firstn 4 (skipn 4 b)))
          (firstn 4 (skipn 8 b)).

(** Modelled from the spec: [count * type_size], and the slot read as the
    absolute offset of the value. *)
Definition valLen (e : Entry) : Z := e_count e * typeSize (e_type e).

Definition ValOffset (order : ByteOrder) (e : Entry) : Z :=
  Uint32 order (e_slot e).

(** Two's complement reading of a [bits]-wide unsigned value. *)
Definition signed (bits : Z) (x : Z) : Z :=
  if x <? 2 ^ (bits - 1) then x else x - 2 ^ bits.

(** Modelled from the spec: one value of type [ty] read from [b] under
    [order]. A rational is two consecutive integers; a float is kept as its
    bit pattern. *)
Definition convertVal (order : ByteOrder) (ty : Z) (b : list byte) : Value :=
  match ty with
  | 1 | 2 => IntVal (u8 b 0)
  | 3 => IntVal (Uint16 order b)
  | 4 => IntVal (Uint32 order b)
  | 5 => RatVal (Uint32 order (firstn 4 b)) (Uint32 order (skipn 4 b))
  | 6 => IntVal (signed 8 (u8 b 0))
  | 8 => IntVal (signed 16 (Uint16 order b))
  | 9 => IntVal (signed 32 (Uint32 order b))
  | 10 => RatVal (signed 32 (Uint32 order (firstn 4 b)))
                 (signed 32 (Uint32 order (skipn 4 b)))
  | 11 => FloatBits (Uint32 order b)
  | 12 => match order with
          | LittleEndian =>
              FloatBits (Z.lor (Uint32 order (firstn 4 b))
                               (Z.shiftl (Uint32 order (skipn 4 b)) 32))
          | BigEndian =>
              FloatBits (Z.lor (Uint32 order (skipn 4 b))
                               (Z.shiftl (Uint32 order (firstn 4 b)) 32))
          end
  | _ => OpaqueByte (u8 b 0)
  end.

(** [count] values of [size] bytes each, cut from [raw]. *)
Fixpoint convertVals (order : ByteOrder) (ty : Z) (size : nat) (count : nat)
  (raw : list byte) : list Value :=
  match count with
  | O => []
  | S count' =>
      convertVal order ty (firstn size raw)
      :: convertVals order ty size count' (skipn size raw)
  end.

Definition tag_of (order : ByteOrder) (e : Entry) (raw : list byte) : Tag :=
  mkTag (e_id e) (e_type e) (e_count e)
        (convertVals order (e_type e) (Z.to_nat (typeSize (e_type e)))
                     (Z.to_nat (e_count e)) raw).

(** Modelled from the spec: [DecodeTag] of tag.go (section 4.2). It reads
    the 12-byte entry; the slot holds the value when [count * type_size <= 4];
    otherwise the value is read at [offset - window base] in the reader's
    slice, which fails when this position is outside the slice. *)
Definition DecodeTag : TagDecoder := fun r order position_offset =>
  let '(r', b, err) := io_ReadFull r 12 in
  let consumed := List.length b in
  match err with
  | Some _ => (consumed, (None, Some ErrTruncatedStructure))
  | None =>
      let e := parse_entry order b in
      if valLen e <=? 4
      then (consumed,
            (Some (tag_of order e (firstn (Z.to_nat (valLen e)) (e_slot e))), None))
      else
        let off := ValOffset order e - position_offset in
        if (off <? 0) || (len (s r') <=? off)
        then (consumed, (None, Some ErrUnresolvableReference))
        else
          let '(raw, err) := Reader_ReadAt r' (Z.to_nat (valLen e)) off in
          match err with
          | Some _ => (consumed, (None, Some ErrTruncatedStructure))
          | None => (consumed, (Some (tag_of order e raw), None))
          end
  end.

(** ** Describing streams *)

(** The header of the spec's section 4.1, read off the first 8 bytes. *)
Definition marker_order (data : list byte) : option ByteOrder :=
  if string_eq (firstn 2 data) "II" then Some LittleEndian
  else if string_eq (firstn 2 data) "MM" then Some BigEndian
       else None.

Definition magic (order : ByteOrder) (data : list byte) : option Z :=
  let b := firstn 2 (from 2 data) in
  if (List.length b =? 2)%nat then Some (int16 (Uint16 order b)) else None.

Definition first_offset (order : ByteOrder) (data : list byte) : option Z :=
  let b := firstn 4 (from 4 data) in
  if (List.length b =? 4)%nat then Some (Uint32 order b) else None.

Definition tiff_header (data : list byte) : option (ByteOrder * Z) :=
  match marker_order data with
  | None => None
  | Some order =>
      match magic order data, first_offset order data with
      | Some sp, Some offset0 => if 42 =? sp then Some (order, offset0) else None
      | _, _ => None
      end
  end.

(** The [k] directory entries that start at absolute offset [p]. *)
Fixpoint entries_from (order : ByteOrder) (data : list byte) (p : Z) (k : nat)
  : list Entry :=
  match k with
  | O => []
  | S k' =>
      parse_entry order (firstn 12 (from p data))
      :: entries_from order data (p + 12) k'
  end.

(** The entries of the directory at absolute offset [off]. *)
Definition dir_entries (order : ByteOrder) (data : list byte) (off : Z)
  : list Entry :=
  entries_from order data (off + 2)
    (Z.to_nat (int16 (Uint16 order (firstn 2 (from off data))))).

(** An entry is local to the window that begins at [base] when its value is
    inline or stored at or after [base]. *)
Definition entry_local (order : ByteOrder) (base : Z) (e : Entry) : bool :=
  (valLen e <=? 4) || (base <=? ValOffset order e).

(** The fast-mode locality precondition for the first directory. *)
Definition locality (order : ByteOrder) (offset0 : Z) (data : list byte) : bool :=
  forallb (entry_local order offset0) (dir_entries order data offset0).

(** ** Streams used as examples *)

Definition B (l : list N) : list byte :=
  map (fun n => match Byte.of_N n with Some b => b | None => "000"%byte end) l.

(** The spec's section 8, property 7: one directory at offset 8, one
    short-typed tag 0x0100 with the inline value 100. *)
Definition stream_inline : list byte :=
  B [73;73;42;0; 8;0;0;0;
     1;0;  0;1; 3;0; 1;0;0;0; 100;0;0;0;  0;0;0;0]%N.

(** One directory at offset 8 whose ASCII tag stores 6 bytes at offset 26. *)
Definition stream_local : list byte :=
  B [73;73;42;0; 8;0;0;0;
     1;0;  14;1; 2;0; 6;0;0;0; 26;0;0;0;  0;0;0;0;
     104;101;108;108;111;0]%N.

(** The same tag, with its 6 bytes at offset 8 and the directory at 14. *)
Definition stream_before : list byte :=
  B [73;73;42;0; 14;0;0;0;
     104;101;108;108;111;0;
     1;0;  14;1; 2;0; 6;0;0;0; 8;0;0;0;  0;0;0;0]%N.

(** Two directories: an empty one at 14 whose next offset is 26, and at 26
    one whose ASCII tag stores its 6 bytes at offset 8, before the first
    directory. Offsets 20 to 25 hold six zero bytes. *)
Definition stream_far : list byte :=
  B [73;73;42;0; 14;0;0;0;
     104;101;108;108;111;0;
     0;0;  26;0;0;0;
     0;0;0;0;0;0;
     1;0;  14;1; 2;0; 6;0;0;0; 8;0;0;0;  0;0;0;0]%N.

(** The directory at offset 10 names offset 10 as the next one. *)
Definition stream_self : list byte :=
  B [73;73;42;0; 10;0;0;0; 0;0;
     0;0;  10;0;0;0]%N.

(** The directory at 8 names 14 as the next one, and the one at 14 names 8. *)
Definition stream_two_cycle : list byte :=
  B [73;73;42;0; 8;0;0;0;
     0;0;  14;0;0;0;
     0;0;  8;0;0;0]%N.

(** A header whose first-directory offset is 0. *)
Definition stream_no_dir : list byte :=
  B [77;77;0;42; 0;0;0;0]%N.

(** A first-directory offset past the end of the stream. *)
Definition stream_past_end : list byte :=
  B [73;73;42;0; 64;0;0;0]%N.

(** A little-endian marker followed by 43 where 42 is due. *)
Definition stream_bad_magic : list byte :=
  B [73;73;43;0; 8;0;0;0]%N.

(** Mixed marker bytes, and a stream of one byte. *)
Definition stream_bad_marker : list byte :=
  B [73;77;42;0; 8;0;0;0]%N.

Definition stream_one_byte : list byte := B [73]%N.

(** A directory whose tag count is 0xFFFF, followed by a next offset of 0. *)
Definition dir_high_count : list byte :=
  B [255;255; 0;0;0;0]%N.

(** A directory that announces one tag and ends inside it. *)
Definition stream_short_tag : list byte :=
  B [73;73;42;0; 8;0;0;0;
     1;0;  0;1; 3;0]%N.

(** The reader that [DecodeFile] holds where [Decode] holds [r]: the same
    bytes seen through the window that begins at absolute offset [base]. *)
Definition into_window (base : Z) (r : Reader) : Reader :=
  mkReader (from base (s r)) (i r - base).

(** ** Printing

    [Tiff.String] and [Dir.String] of tiff.go. [Tag.String] lives in tag.go,
    which is not among the sources: the printers are embedded over an
    arbitrary [Tag_String]. A call on a value that makes Go panic (a method
    that dereferences a nil pointer) gives [None]. *)

Section Printing.
Variable Tag_String : ptr Tag -> option string.

(** The loop [for _, t := range d.Tags { s += t.String() + ", " }]. *)
Fixpoint Dir_String_tags (tags : list (ptr Tag)) (s : string) : option string :=
  match tags with
  | [] => Some s
  | t :: tags' =>
      match Tag_String t with
      | None => None
      | Some ts => Dir_String_tags tags' (String.append s (String.append ts ", "))
      end
  end.

Definition Dir_String (d : ptr Dir) : option string :=
  match d with
  | None => None
  | Some d =>
      match Dir_String_tags (Tags d) "Dir{" with
      | None => None
      | Some s => Some (String.append s "}")
      end
  end.

(** The loop [for _, d := range tf.Dirs { fmt.Fprintf(&buf, "%s, ", d.String()) }]. *)
Fixpoint Tiff_String_dirs (dirs : list (ptr Dir)) (buf : string) : option string :=
  match dirs with
  | [] => Some buf
  | d :: dirs' =>
      match Dir_String d with
      | None => None
      | Some ds => Tiff_String_dirs dirs' (String.append buf (String.append ds ", "))
      end
  end.

Definition Tiff_String (tf : ptr Tiff) : option string :=
  match tf with
  | None => None
  | Some tf =>
      match Tiff_String_dirs (Dirs tf) "Tiff{" with
      | None => None
      | Some buf => Some (String.append buf "}")
      end
  end.
End Printing.

(** The strings [x1 ++ ", " ++ x2 ++ ", " ++ ...]: each item followed by a
    comma and a space. *)
Fixpoint each_with_comma (items : list string) : string :=
  match items with
  | [] => EmptyString
  | x :: items' => String.append x (String.append ", " (each_with_comma items'))
  end.

(** More example streams. *)

(** Two directories back to back, at 8 and at 26; the tag of the second one
    stores its 6 bytes at offset 44. *)
Definition stream_packed : list byte :=
  B [73;73;42;0; 8;0;0;0;
     1;0;  0;1; 3;0; 1;0;0;0; 100;0;0;0;  26;0;0;0;
     1;0;  14;1; 2;0; 6;0;0;0; 44;0;0;0;  0;0;0;0;
     104;101;108;108;111;0]%N.

(** Three directories that name each other in a ring: 8, 14, 20, 8. *)
Definition stream_three_cycle : list byte :=
  B [73;73;42;0; 8;0;0;0;
     0;0;  14;0;0;0;
     0;0;  20;0;0;0;
     0;0;  8;0;0;0]%N.

(** Four bytes that are not part of the TIFF stream, then [stream_inline]. *)
Definition file_with_prefix : list byte :=
  B [255;216;255;225]%N ++ stream_inline.

(** Headers cut short: after the marker, and after the magic value. *)
Definition stream_marker_only : list byte := B [77;77;0]%N.

Definition stream_no_offset : list byte := B [77;77;0;42; 0;0]%N.

(** A directory cut inside its tag count, and one cut inside its
    next-directory offset. *)
Definition dir_one_byte : list byte := B [1]%N.

Definition dir_short_offset : list byte := B [0;0; 9;0]%N.

(** An empty directory at 8 that names 20, six zero bytes, and at 20 an
    empty directory that names 20, its own offset. *)
Definition stream_self_far : list byte :=
  B [73;73;42;0; 8;0;0;0;
     0;0;  20;0;0;0;
     0;0;0;0;0;0;
     0;0;  20;0;0;0]%N.

(** Two directories back to back, at 14 and at 20; the tag of the second
    one stores its 6 bytes at offset 8, before the first directory. *)
Definition stream_packed_before : list byte :=
  B [73;73;42;0; 14;0;0;0;
     104;101;108;108;111;0;
     0;0;  20;0;0;0;
     1;0;  14;1; 2;0; 6;0;0;0; 8;0;0;0;  0;0;0;0]%N.

(** [stream_before] without its last four bytes, the next-directory offset. *)
Definition stream_before_cut : list byte :=
  B [73;73;42;0; 14;0;0;0;
     104;101;108;108;111;0;
     1;0;  14;1; 2;0; 6;0;0;0; 8;0;0;0]%N.

(** The messages of the errors that tiff.go creates. *)
Definition ErrByteOrder : error := errors_New "tiff: could not read tiff byte order".
Definition ErrMagic : error := errors_New "tiff: could not find special tiff marker".
Definition ErrRecursive : error := errors_New "tiff: recursive IFD".
Definition ErrSeekAfterEOF : error := errors_New "tiff: seek offset after EOF".

(** * Properties *)

(** ** Bytes, readers and fixed-width integers *)

Lemma bytes_eqb_eq (a b : list byte) : bytes_eqb a b = true <-> a = b.
Proof.
  revert b; induction a as [|x a IH]; intros [|y b]; simpl; split;
    try discriminate; try reflexivity.
  - intros H. apply andb_true_iff in H as [H1 H2].
    apply Byte.byte_dec_bl in H1. apply IH in H2. congruence.
  - intros H. injection H as -> ->. apply andb_true_iff. split.
    + now apply Byte.byte_dec_lb.
    + now apply IH.
Qed.

Lemma string_eq_length (b : list byte) (lit : string) :
  string_eq b lit = true -> List.length b = String.length lit.
Proof.
  unfold string_eq. intros H. apply bytes_eqb_eq in H. subst b.
  unfold list_byte_of_string. rewrite length_map.
  induction lit; simpl; congruence.
Qed.

Lemma from_0 {A : Type} (l : list A) : from 0 l = l.
Proof. reflexivity. Qed.

Lemma from_from {A : Type} (p q : Z) (l : list A) :
  0 <= p -> 0 <= q -> from p (from q l) = from (q + p) l.
Proof.
  intros Hp Hq. unfold from. rewrite skipn_skipn. f_equal. lia.
Qed.

Lemma len_from {A : Type} (p : Z) (l : list A) :
  0 <= p <= len l -> len (from p l) = len l - p.
Proof. unfold len, from. intros H. rewrite length_skipn. lia. Qed.

Lemma from_past_end {A : Type} (p : Z) (l : list A) :
  len l <= p -> from p l = [].
Proof. unfold len, from. intros H. apply skipn_all2. lia. Qed.

Lemma firstn_from_full {A : Type} (n : nat) (p : Z) (l : list A) :
  0 <= p -> (0 < n)%nat -> List.length (firstn n (from p l)) = n -> p < len l.
Proof.
  unfold len, from. intros Hp Hn H. rewrite length_firstn, length_skipn in H. lia.
Qed.

Lemma u8_range (b : list byte) (k : nat) : 0 <= u8 b k < 256.
Proof.
  unfold u8. pose proof (Byte.to_N_bounded (nth k b "000"%byte)). lia.
Qed.

Lemma lor_shiftl_bound (a b n m : Z) :
  0 <= n -> 0 <= a < 2 ^ n -> 0 <= b < 2 ^ m -> 0 <= m ->
  0 <= Z.lor a (Z.shiftl b n) < 2 ^ (n + m).
Proof.
  intros Hn Ha Hb Hm. split.
  - apply Z.lor_nonneg. split; [lia|]. apply Z.shiftl_nonneg. lia.
  - pose proof (Z.add_lor_land a (Z.shiftl b n)) as E.
    assert (0 <= Z.land a (Z.shiftl b n)).
    { apply Z.land_nonneg. left. lia. }
    rewrite Z.shiftl_mul_pow2 in * by lia.
    rewrite Z.pow_add_r by lia. nia.
Qed.

Lemma Uint16_range (order : ByteOrder) (b : list byte) :
  0 <= Uint16 order b < 65536.
Proof.
  destruct order; unfold Uint16;
    apply (lor_shiftl_bound _ _ 8 8); try lia; apply u8_range.
Qed.

Lemma Uint32_range (order : ByteOrder) (b : list byte) :
  0 <= Uint32 order b < 4294967296.
Proof.
  destruct order; unfold Uint32;
    apply (lor_shiftl_bound _ _ 24 8); try lia; try apply u8_range;
    apply (lor_shiftl_bound _ _ 16 8); try lia; try apply u8_range;
    apply (lor_shiftl_bound _ _ 8 8); try lia; apply u8_range.
Qed.

Lemma int16_high_bit (x : Z) : 32768 <= x < 65536 -> int16 x = x - 65536.
Proof.
  intros H. unfold int16. rewrite Z.mod_small by lia.
  destruct (x <? 32768) eqn:E; [apply Z.ltb_lt in E; lia | reflexivity].
Qed.

Lemma io_ReadFull_ok (r : Reader) (n : nat) :
  List.length (firstn n (from (i r) (s r))) = n ->
  io_ReadFull r n
  = (mkReader (s r) (i r + Z.of_nat n), firstn n (from (i r) (s r)), None).
Proof.
  intros H. unfold io_ReadFull, len. rewrite H, Nat.eqb_refl. reflexivity.
Qed.

Lemma io_ReadFull_short (r : Reader) (n : nat) :
  List.length (firstn n (from (i r) (s r))) <> n ->
  exists r' e, io_ReadFull r n = (r', firstn n (from (i r) (s r)), Some e).
Proof.
  intros H. unfold io_ReadFull. apply Nat.eqb_neq in H. rewrite H.
  destruct (List.length _ =? 0)%nat; eauto.
Qed.

Lemma File_ReadFull_ok (f : File) (n : nat) :
  List.length (firstn n (from (pos f) (content f))) = n ->
  File_ReadFull f n
  = (mkFile (content f) (pos f + Z.of_nat n) (read_err f),
     firstn n (from (pos f) (content f)), None).
Proof.
  intros H. unfold File_ReadFull, len. rewrite H, Nat.eqb_refl. reflexivity.
Qed.

Lemma File_ReadFull_short (f : File) (n : nat) :
  List.length (firstn n (from (pos f) (content f))) <> n ->
  exists f' e, File_ReadFull f n = (f', firstn n (from (pos f) (content f)), Some e).
Proof.
  intros H. unfold File_ReadFull. apply Nat.eqb_neq in H. rewrite H.
  destruct (read_err f); [eauto|]. destruct (List.length _ =? 0)%nat; eauto.
Qed.

Lemma firstn_firstn_from_0 (n : nat) (b : list byte) :
  firstn n (from 0 (firstn n b)) = firstn n b.
Proof. rewrite from_0, firstn_firstn, Nat.min_id. reflexivity. Qed.

Lemma marker_order_length (data : list byte) (order : ByteOrder) :
  marker_order data = Some order -> List.length (firstn 2 data) = 2%nat.
Proof.
  unfold marker_order. intros H.
  destruct (string_eq (firstn 2 data) "II") eqn:E1.
  - now apply string_eq_length in E1.
  - destruct (string_eq (firstn 2 data) "MM") eqn:E2; [|discriminate].
    now apply string_eq_length in E2.
Qed.

Lemma marker_order_none_short (data : list byte) :
  List.length (firstn 2 data) <> 2%nat -> marker_order data = None.
Proof.
  intros H. destruct (marker_order data) eqn:E; [|reflexivity].
  apply marker_order_length in E. contradiction.
Qed.

(** ** Fuel *)

Section WalkFacts.
Variable State : Type.
Variable iter : State -> Outcome State.

Lemma walk_more_fuel (fuel fuel' : nat) (st : State) (res : TiffResult) :
  walk State iter fuel st = Some res -> (fuel <= fuel')%nat ->
  walk State iter fuel' st = Some res.
Proof.
  revert fuel' st. induction fuel as [|fuel IH]; intros fuel' st H Hle; simpl in H.
  - destruct fuel'; simpl; destruct (iter st); congruence.
  - destruct fuel' as [|fuel']; [lia|]. simpl.
    destruct (iter st); [|assumption]. apply IH; [assumption | lia].
Qed.

Lemma walk_from_head (n fuel : nat) (st st' : State) :
  head_of_iteration State iter n st = Some st' ->
  walk State iter (n + fuel) st = walk State iter fuel st'.
Proof.
  revert st. induction n as [|n IH]; intros st H; simpl in H.
  - injection H as ->. reflexivity.
  - destruct (iter st) as [st1|res] eqn:E; [|discriminate].
    change (S n + fuel)%nat with (S (n + fuel)). simpl. rewrite E. now apply IH.
Qed.

Lemma walk_returns_at_head (n fuel : nat) (st st' : State) (res : TiffResult) :
  head_of_iteration State iter n st = Some st' ->
  iter st' = Returned res -> (n <= fuel)%nat ->
  walk State iter fuel st = Some res.
Proof.
  intros H E Hle. replace fuel with (n + (fuel - n))%nat by lia.
  rewrite (walk_from_head _ _ _ _ H). destruct (fuel - n)%nat; simpl; now rewrite E.
Qed.

(** A property of every returned result holds of what the loop returns. *)
Lemma walk_returned (P : TiffResult -> Prop) :
  (forall st res, iter st = Returned res -> P res) ->
  forall fuel st res, walk State iter fuel st = Some res -> P res.
Proof.
  intros HP. induction fuel as [|fuel IH]; intros st res H; simpl in H;
    destruct (iter st) as [st1|res1] eqn:E; try discriminate.
  - injection H as <-. eauto.
  - eauto.
  - injection H as <-. eauto.
Qed.

(** A loop that never leaves an invariant of running states never returns. *)
Lemma walk_diverges (Inv : State -> Prop) :
  (forall st, Inv st -> exists st', iter st = Running st' /\ Inv st') ->
  forall fuel st, Inv st -> walk State iter fuel st = None.
Proof.
  intros Hstep. induction fuel as [|fuel IH]; intros st HI; simpl;
    destruct (Hstep st HI) as (st' & E & HI'); rewrite E; auto.
Qed.
End WalkFacts.

(** ** The header *)

Section DecoderFacts.
Variable DecodeTag : TagDecoder.

Lemma Decode_header (fuel : nat) (data : list byte) :
  Decode DecodeTag fuel (stream data) =
  match marker_order data with
  | None => Some (None, Some ErrByteOrder)
  | Some order =>
      match magic order data with
      | None => Some (None, Some ErrMagic)
      | Some sp =>
          if 42 =? sp then
            match first_offset order data with
            | None =>
                Some (None, Some (errors_New "tiff: could not read offset to first IFD"))
            | Some offset0 =>
                walk WalkState (Decode_iter DecodeTag order) fuel (Decode_start data offset0)
            end
          else Some (None, Some ErrMagic)
      end
  end.
Proof.
  unfold Decode, stream, ioutil_ReadAll. cbn [delivered fault].
  destruct (Nat.eq_dec (List.length (firstn 2 data)) 2) as [L2|L2].
  2:{ rewrite (marker_order_none_short _ L2).
      destruct (io_ReadFull_short (bytes_NewReader data) 2) as (r' & e & ->);
        [exact L2 | reflexivity]. }
  rewrite io_ReadFull_ok by exact L2. cbn [s i bytes_NewReader]. rewrite from_0.
  unfold marker_order.
  set (mo := if string_eq (firstn 2 data) "II" then Some LittleEndian
             else if string_eq (firstn 2 data) "MM" then Some BigEndian else None).
  destruct mo as [order|]; [|reflexivity].
  unfold binary_Read_int16, magic.
  destruct (Nat.eq_dec (List.length (firstn 2 (from 2 data))) 2) as [M2|M2].
  2:{ destruct (io_ReadFull_short (mkReader data (0 + Z.of_nat 2)) 2) as (r' & e & ->);
        [exact M2|]. apply Nat.eqb_neq in M2. rewrite M2. reflexivity. }
  rewrite io_ReadFull_ok by exact M2. cbn [s i bytes_NewReader]. rewrite M2, Nat.eqb_refl.
  change (0 + Z.of_nat 2) with 2. rewrite orb_false_l.
  destruct (42 =? int16 (Uint16 order (firstn 2 (from 2 data)))); [|reflexivity].
  cbn [negb].
  unfold binary_Read_uint32, first_offset.
  destruct (Nat.eq_dec (List.length (firstn 4 (from 4 data))) 4) as [O4|O4].
  2:{ destruct (io_ReadFull_short (mkReader data (2 + Z.of_nat 2)) 4) as (r' & e & ->);
        [exact O4|]. apply Nat.eqb_neq in O4. rewrite O4. reflexivity. }
  rewrite io_ReadFull_ok by exact O4. cbn [s i bytes_NewReader]. rewrite O4, Nat.eqb_refl.
  reflexivity.
Qed.

Lemma DecodeFile_header (fuel : nat) (data : list byte) :
  DecodeFile DecodeTag fuel (os_Open data) =
  match marker_order data with
  | None => Some (None, Some ErrByteOrder)
  | Some order =>
      match magic order data with
      | None => Some (None, Some (errors_New "tiff: could not read special tiff marker"))
      | Some sp =>
          if 42 =? sp then
            match first_offset order data with
            | None =>
                Some (None, Some (errors_New "tiff: could not read offset of 1st IFD"))
            | Some offset0 =>
                walk WalkState (DecodeFile_iter DecodeTag order offset0) fuel
                  (DecodeFile_start data offset0)
            end
          else Some (None, Some ErrMagic)
      end
  end.
Proof.
  unfold DecodeFile, os_Open.
  destruct (Nat.eq_dec (List.length (firstn 2 data)) 2) as [L2|L2].
  2:{ rewrite (marker_order_none_short _ L2).
      destruct (File_ReadFull_short (mkFile data 0 None) 2) as (r' & e & ->);
        [exact L2 | reflexivity]. }
  rewrite File_ReadFull_ok by exact L2. cbn [content pos read_err]. rewrite from_0.
  unfold marker_order.
  set (mo := if string_eq (firstn 2 data) "II" then Some LittleEndian
             else if string_eq (firstn 2 data) "MM" then Some BigEndian else None).
  destruct mo as [order|]; [|reflexivity].
  unfold magic.
  destruct (Nat.eq_dec (List.length (firstn 2 (from 2 data))) 2) as [M2|M2].
  2:{ destruct (File_ReadFull_short (mkFile data (0 + Z.of_nat 2) None) 2) as (r' & e & ->);
        [exact M2|]. apply Nat.eqb_neq in M2. rewrite M2. reflexivity. }
  rewrite File_ReadFull_ok by exact M2. cbn [content pos read_err].
  rewrite M2, Nat.eqb_refl. change (0 + Z.of_nat 2) with 2.
  unfold binary_Read_int16.
  rewrite io_ReadFull_ok; cbn [s i bytes_NewReader];
    rewrite firstn_firstn_from_0; [|exact M2].
  rewrite orb_false_l.
  destruct (42 =? int16 (Uint16 order (firstn 2 (from 2 data)))); [|reflexivity].
  cbn [negb].
  unfold first_offset.
  destruct (Nat.eq_dec (List.length (firstn 4 (from 4 data))) 4) as [O4|O4].
  2:{ destruct (File_ReadFull_short (mkFile data (2 + Z.of_nat 2) None) 4) as (r' & e & ->);
        [exact O4|]. apply Nat.eqb_neq in O4. rewrite O4. reflexivity. }
  rewrite File_ReadFull_ok by exact O4. cbn [content pos read_err].
  rewrite O4, Nat.eqb_refl. change (2 + Z.of_nat 2) with 4.
  unfold binary_Read_uint32.
  rewrite io_ReadFull_ok; cbn [s i bytes_NewReader];
    rewrite firstn_firstn_from_0; [|exact O4].
  unfold File_Seek.
  pose proof (Uint32_range order (firstn 4 (from 4 data))) as R.
  destruct (Uint32 order (firstn 4 (from 4 data)) <? 0) eqn:E;
    [apply Z.ltb_lt in E; lia|].
  reflexivity.
Qed.
Lemma tiff_header_inv (data : list byte) (order : ByteOrder) (offset0 : Z) :
  tiff_header data = Some (order, offset0) ->
  marker_order data = Some order /\ magic order data = Some 42
  /\ first_offset order data = Some offset0.
Proof.
  unfold tiff_header. destruct (marker_order data) as [o|]; [|discriminate].
  destruct (magic o data) as [sp|] eqn:E1; [|discriminate].
  destruct (first_offset o data) as [off|] eqn:E2; [|discriminate].
  destruct (42 =? sp) eqn:E; [|discriminate].
  apply Z.eqb_eq in E. subst sp. intros H. injection H as -> ->. repeat split; assumption.
Qed.

Lemma Decode_after_header (fuel : nat) (data : list byte) (order : ByteOrder)
  (offset0 : Z) :
  tiff_header data = Some (order, offset0) ->
  Decode DecodeTag fuel (stream data)
  = walk WalkState (Decode_iter DecodeTag order) fuel (Decode_start data offset0).
Proof.
  intros H. apply tiff_header_inv in H as (H1 & H2 & H3).
  rewrite Decode_header, H1, H2, H3. reflexivity.
Qed.

Lemma DecodeFile_after_header (fuel : nat) (data : list byte) (order : ByteOrder)
  (offset0 : Z) :
  tiff_header data = Some (order, offset0) ->
  DecodeFile DecodeTag fuel (os_Open data)
  = walk WalkState (DecodeFile_iter DecodeTag order offset0) fuel
      (DecodeFile_start data offset0).
Proof.
  intros H. apply tiff_header_inv in H as (H1 & H2 & H3).
  rewrite DecodeFile_header, H1, H2, H3. reflexivity.
Qed.

Lemma marker_order_II (data : list byte) :
  marker_order data = Some LittleEndian <-> firstn 2 data = list_byte_of_string "II".
Proof.
  unfold marker_order. destruct (string_eq (firstn 2 data) "II") eqn:E.
  - apply bytes_eqb_eq in E. tauto.
  - split.
    + destruct (string_eq (firstn 2 data) "MM"); discriminate.
    + intros H. apply bytes_eqb_eq in H. unfold string_eq in E. congruence.
Qed.

Lemma marker_order_MM (data : list byte) :
  marker_order data = Some BigEndian <-> firstn 2 data = list_byte_of_string "MM".
Proof.
  unfold marker_order. destruct (string_eq (firstn 2 data) "II") eqn:E.
  - apply bytes_eqb_eq in E. rewrite E. split; discriminate.
  - destruct (string_eq (firstn 2 data) "MM") eqn:E'.
    + apply bytes_eqb_eq in E'. tauto.
    + split; [discriminate|]. intros H. apply bytes_eqb_eq in H.
      unfold string_eq in E'. congruence.
Qed.

(** What one turn of either loop can return: the assembled [Tiff] without an
    error when the offset is 0, and otherwise an error without a [Tiff]. *)
Lemma Decode_iter_returned (order : ByteOrder) (st : WalkState) (res : TiffResult) :
  Decode_iter DecodeTag order st = Returned res ->
  (w_offset st = 0 /\ res = (Some (mkTiff (w_Dirs st) order), None))
  \/ (w_offset st <> 0 /\ exists e, res = (None, Some e)).
Proof.
  unfold Decode_iter. destruct (w_offset st =? 0) eqn:E0.
  - apply Z.eqb_eq in E0. intros H. injection H as <-. auto.
  - apply Z.eqb_neq in E0. intros H. right. split; [assumption|]. revert H.
    destruct (Reader_Seek _ _) as [[buf a] [e|]].
    { intros H. injection H as <-. eauto. }
    destruct (Reader_Len buf =? 0).
    { intros H. injection H as <-. eauto. }
    destruct (DecodeDir _ _ _ _) as [buf' [[d off] [e|]]].
    { intros H. injection H as <-. eauto. }
    destruct (off =? w_prev st); [|discriminate].
    intros H. injection H as <-. eauto.
Qed.

Lemma DecodeFile_iter_returned (order : ByteOrder) (offset0 : Z) (st : WalkState)
  (res : TiffResult) :
  DecodeFile_iter DecodeTag order offset0 st = Returned res ->
  (w_offset st = 0 /\ res = (Some (mkTiff (w_Dirs st) order), None))
  \/ (w_offset st <> 0 /\ exists e, res = (None, Some e)).
Proof.
  unfold DecodeFile_iter. destruct (w_offset st =? 0) eqn:E0.
  - apply Z.eqb_eq in E0. intros H. injection H as <-. auto.
  - apply Z.eqb_neq in E0. intros H. right. split; [assumption|]. revert H.
    destruct (DecodeDir _ _ _ _) as [buf' [[d off] [e|]]].
    { intros H. injection H as <-. eauto. }
    destruct (off =? w_prev st); [|discriminate].
    intros H. injection H as <-. eauto.
Qed.

(** A successful decode carries the byte order its walk was started with. *)
Lemma Decode_walk_order (order : ByteOrder) (fuel : nat) (st : WalkState) (t : Tiff)
  (e : option error) :
  walk WalkState (Decode_iter DecodeTag order) fuel st = Some (Some t, e) ->
  Order t = order.
Proof.
  intros H.
  apply (walk_returned _ _ (fun res => forall t e, res = (Some t, e) -> Order t = order))
    with (t := t) (e := e) in H; [assumption | | reflexivity].
  intros st0 res0 E t0 e0 ->.
  apply Decode_iter_returned in E as [[_ E]|[_ [e1 E]]]; [|discriminate].
  injection E as -> _. reflexivity.
Qed.

Lemma DecodeFile_walk_order (order : ByteOrder) (offset0 : Z) (fuel : nat)
  (st : WalkState) (t : Tiff) (e : option error) :
  walk WalkState (DecodeFile_iter DecodeTag order offset0) fuel st = Some (Some t, e) ->
  Order t = order.
Proof.
  intros H.
  apply (walk_returned _ _ (fun res => forall t e, res = (Some t, e) -> Order t = order))
    with (t := t) (e := e) in H; [assumption | | reflexivity].
  intros st0 res0 E t0 e0 ->.
  apply DecodeFile_iter_returned in E as [[_ E]|[_ [e1 E]]]; [|discriminate].
  injection E as -> _. reflexivity.
Qed.

(** The byte order that a successful decode reports is the one that the
    marker names. *)
Lemma decoded_order_is_marker (data : list byte) (fuel : nat) (t : Tiff) :
  Decode DecodeTag fuel (stream data) = Some (Some t, None)
  \/ DecodeFile DecodeTag fuel (os_Open data) = Some (Some t, None) ->
  marker_order data = Some (Order t).
Proof.
  intros [H|H].
  - rewrite Decode_header in H.
    destruct (marker_order data) as [order|]; [|discriminate].
    destruct (magic order data) as [sp|]; [|discriminate].
    destruct (42 =? sp); [|discriminate].
    destruct (first_offset order data) as [off|]; [|discriminate].
    apply Decode_walk_order in H. congruence.
  - rewrite DecodeFile_header in H.
    destruct (marker_order data) as [order|]; [|discriminate].
    destruct (magic order data) as [sp|]; [|discriminate].
    destruct (42 =? sp); [|discriminate].
    destruct (first_offset order data) as [off|]; [|discriminate].
    apply DecodeFile_walk_order in H. congruence.
Qed.

(** C3. Byte order and magic. A decode that succeeds reports little-endian
    exactly when the first two bytes are "II" and big-endian exactly when they
    are "MM". With any other first two bytes, a stream of fewer than two bytes
    included, [Decode] and [DecodeFile] fail with the byte-order error, which
    is none of the truncated-structure errors. With a valid marker, a
    following 2-byte value other than 42 under the order of the marker makes
    both fail with the magic-marker error, which differs from the byte-order
    error. *)
Theorem byte_order_and_magic (data : list byte) :
  (forall fuel t,
      Decode DecodeTag fuel (stream data) = Some (Some t, None)
      \/ DecodeFile DecodeTag fuel (os_Open data) = Some (Some t, None) ->
      (Order t = LittleEndian <-> firstn 2 data = list_byte_of_string "II")
      /\ (Order t = BigEndian <-> firstn 2 data = list_byte_of_string "MM"))
  /\ (firstn 2 data <> list_byte_of_string "II" ->
      firstn 2 data <> list_byte_of_string "MM" ->
      forall fuel,
        Decode DecodeTag fuel (stream data) = Some (None, Some ErrByteOrder)
        /\ DecodeFile DecodeTag fuel (os_Open data) = Some (None, Some ErrByteOrder))
  /\ (forall order,
        (order = LittleEndian /\ firstn 2 data = list_byte_of_string "II")
        \/ (order = BigEndian /\ firstn 2 data = list_byte_of_string "MM") ->
        List.length (firstn 2 (from 2 data)) = 2%nat ->
        int16 (Uint16 order (firstn 2 (from 2 data))) <> 42 ->
        forall fuel,
          Decode DecodeTag fuel (stream data) = Some (None, Some ErrMagic)
          /\ DecodeFile DecodeTag fuel (os_Open data) = Some (None, Some ErrMagic))
  /\ ErrMagic <> ErrByteOrder
  /\ (forall e,
        ErrByteOrder <> errors_New ("tiff: failed to read IFD tag count: " ++ Error e)
        /\ ErrByteOrder
           <> errors_New ("tiff: falied to read offset to next IFD: " ++ Error e))
  /\ ErrByteOrder <> ErrTruncatedStructure.
Proof.
  split; [|split; [|split; [|split; [|split]]]].
  - intros fuel t H. apply decoded_order_is_marker in H.
    rewrite <- marker_order_II, <- marker_order_MM. rewrite H.
    split; split; congruence.
  - intros HI HM fuel.
    assert (marker_order data = None) as E.
    { destruct (marker_order data) as [[|]|] eqn:E; [| |reflexivity].
      - apply marker_order_II in E. contradiction.
      - apply marker_order_MM in E. contradiction. }
    rewrite Decode_header, DecodeFile_header, E. auto.
  - intros order Hm L2 Hsp fuel.
    assert (marker_order data = Some order) as E.
    { destruct Hm as [[-> H]|[-> H]];
        [now apply marker_order_II | now apply marker_order_MM]. }
    rewrite Decode_header, DecodeFile_header, E. unfold magic.
    rewrite L2, Nat.eqb_refl.
    destruct (42 =? int16 (Uint16 order (firstn 2 (from 2 data)))) eqn:E42;
      [apply Z.eqb_eq in E42; congruence | auto].
  - discriminate.
  - intros e. split; discriminate.
  - discriminate.
Qed.

(** C9. A valid header whose first-directory offset is 0: both entry points
    succeed, with the byte order of the marker and no directory. *)
Theorem zero_first_offset_decodes_empty (data : list byte) (order : ByteOrder) :
  tiff_header data = Some (order, 0) ->
  forall fuel,
    Decode DecodeTag fuel (stream data) = Some (Some (mkTiff [] order), None)
    /\ DecodeFile DecodeTag fuel (os_Open data) = Some (Some (mkTiff [] order), None).
Proof.
  intros H fuel.
  rewrite (Decode_after_header _ _ _ _ H), (DecodeFile_after_header _ _ _ _ H).
  split; destruct fuel; reflexivity.
Qed.

(** ** DecodeDir *)

Lemma Reader_advance_advance (r : Reader) (n m : nat) :
  Reader_advance (Reader_advance r n) m = Reader_advance r (n + m).
Proof. unfold Reader_advance. cbn [s i]. f_equal. lia. Qed.

Lemma io_ReadFull_inv (r r' : Reader) (n : nat) (b : list byte) :
  io_ReadFull r n = (r', b, None) ->
  r' = Reader_advance r n /\ b = firstn n (from (i r) (s r)) /\ List.length b = n.
Proof.
  unfold io_ReadFull.
  destruct (List.length (firstn n (from (i r) (s r))) =? n)%nat eqn:E.
  - apply Nat.eqb_eq in E. intros H. injection H as <- <-.
    unfold Reader_advance, len. rewrite E. auto.
  - destruct (List.length _ =? 0)%nat; discriminate.
Qed.

Lemma io_ReadFull_reader (r : Reader) (n : nat) :
  exists m, fst (fst (io_ReadFull r n)) = Reader_advance r m /\ (m <= n)%nat.
Proof.
  exists (List.length (firstn n (from (i r) (s r)))). split; [reflexivity|].
  rewrite length_firstn. lia.
Qed.

(** The tags that the loop of [DecodeDir] appends are those of successive
    calls of [DecodeTag]. *)
Lemma DecodeDir_tags_ok (order : ByteOrder) (base : Z) (k : nat) :
  forall r acc r' tags,
    DecodeDir_tags DecodeTag k r order base acc = (r', tags, None) ->
    exists ts, tags = acc ++ ts /\ List.length ts = k
               /\ tags_decoded DecodeTag order base r ts r'.
Proof.
  induction k as [|k IH]; intros r acc r' tags H; simpl in H.
  - injection H as <- <-. exists []. rewrite app_nil_r.
    repeat split. constructor.
  - destruct (DecodeTag r order base) as [n [t [e|]]] eqn:E; [discriminate|].
    apply IH in H as (ts & -> & L & T). exists (t :: ts).
    rewrite <- app_assoc. simpl. repeat split; [congruence|].
    econstructor; eassumption.
Qed.

Lemma DecodeDir_tags_run (order : ByteOrder) (base : Z) (r r' : Reader)
  (ts : list (ptr Tag)) :
  tags_decoded DecodeTag order base r ts r' ->
  forall acc,
    DecodeDir_tags DecodeTag (List.length ts) r order base acc = (r', acc ++ ts, None).
Proof.
  induction 1 as [r|r r2 n t ts E T IH]; intros acc; simpl.
  - now rewrite app_nil_r.
  - rewrite E, IH, <- app_assoc. reflexivity.
Qed.

(** The first tag that fails ends the loop with its error. *)
Lemma DecodeDir_tags_fail (order : ByteOrder) (base : Z) (r rj : Reader)
  (ts : list (ptr Tag)) :
  tags_decoded DecodeTag order base r ts rj ->
  forall k acc n t e,
    (List.length ts < k)%nat ->
    DecodeTag rj order base = (n, (t, Some e)) ->
    DecodeDir_tags DecodeTag k r order base acc
    = (Reader_advance rj n, acc ++ ts, Some e).
Proof.
  induction 1 as [r|r r2 n0 t0 ts E T IH]; intros k acc n t e Hlt Hf;
    (destruct k as [|k]; [simpl in Hlt; lia|]); simpl.
  - rewrite Hf, app_nil_r. reflexivity.
  - rewrite E. rewrite (IH k (acc ++ [t0]) n t e); [|simpl in Hlt; lia|assumption].
    rewrite <- app_assoc. reflexivity.
Qed.

Lemma tags_decoded_reader (order : ByteOrder) (base : Z) (r r' : Reader)
  (ts : list (ptr Tag)) :
  tags_decoded DecodeTag order base r ts r' ->
  exists m, r' = Reader_advance r m.
Proof.
  induction 1 as [r|r r2 n t ts E T [m IH]].
  - exists 0%nat. unfold Reader_advance. destruct r. cbn [s i]. f_equal. lia.
  - exists (n + m)%nat. now rewrite <- Reader_advance_advance.
Qed.

Lemma DecodeDir_tags_reader (order : ByteOrder) (base : Z) (k : nat) :
  forall r acc, exists m,
    fst (fst (DecodeDir_tags DecodeTag k r order base acc)) = Reader_advance r m.
Proof.
  induction k as [|k IH]; intros r acc; simpl.
  - exists 0%nat. unfold Reader_advance. destruct r. cbn [s i fst]. f_equal. lia.
  - destruct (DecodeTag r order base) as [n [t [e|]]].
    + exists n. reflexivity.
    + destruct (IH (Reader_advance r n) (acc ++ [t])) as [m ->].
      exists (n + m)%nat. apply Reader_advance_advance.
Qed.

(** What a successful [DecodeDir] did. *)
Lemma DecodeDir_ok_inv (r r' : Reader) (order : ByteOrder) (base : Z)
  (d : ptr Dir) (off : Z) :
  DecodeDir DecodeTag r order base = (r', (d, off, None)) ->
  exists bs r2 tags,
    io_ReadFull r 2 = (Reader_advance r 2, bs, None)
    /\ DecodeDir_tags DecodeTag (Z.to_nat (int16 (Uint16 order bs)))
         (Reader_advance r 2) order base [] = (r2, tags, None)
    /\ binary_Read_uint32 r2 order = (r', off, None)
    /\ d = Some (mkDir tags).
Proof.
  unfold DecodeDir, binary_Read_int16.
  destruct (io_ReadFull r 2) as [[r1 bs] [e|]] eqn:E1; [discriminate|].
  destruct (io_ReadFull_inv _ _ _ _ E1) as (-> & _ & _).
  destruct (DecodeDir_tags _ _ _ _ _ _) as [[r2 tags] [e|]] eqn:E2; [discriminate|].
  destruct (binary_Read_uint32 r2 order) as [[r3 o] [e|]] eqn:E3; [discriminate|].
  intros H. injection H as <- <- <-. exists bs, r2, tags. auto.
Qed.

Lemma binary_Read_uint32_inv (r r' : Reader) (order : ByteOrder) (off : Z) :
  binary_Read_uint32 r order = (r', off, None) ->
  r' = Reader_advance r 4 /\ 0 <= off < 4294967296.
Proof.
  unfold binary_Read_uint32.
  destruct (io_ReadFull r 4) as [[r1 bs] [e|]] eqn:E; [discriminate|].
  apply io_ReadFull_inv in E as (-> & _ & _).
  intros H. injection H as <- <-. split; [reflexivity | apply Uint32_range].
Qed.

(** [DecodeDir] leaves the slice of the reader alone and moves its index
    forward, by at least 6 bytes when it succeeds. *)
Lemma DecodeDir_reader (r : Reader) (order : ByteOrder) (base : Z) :
  exists m, fst (DecodeDir DecodeTag r order base) = Reader_advance r m.
Proof.
  unfold DecodeDir, binary_Read_int16.
  destruct (io_ReadFull_reader r 2) as (m1 & E1 & _).
  destruct (io_ReadFull r 2) as [[r1 bs] [e|]]; cbn [fst] in E1; subst r1.
  { exists m1. reflexivity. }
  match goal with |- context [DecodeDir_tags DecodeTag ?k ?r0 order base []] =>
    destruct (DecodeDir_tags_reader order base k r0 []) as [m2 E2];
    destruct (DecodeDir_tags DecodeTag k r0 order base []) as [[r2 tags] [e|]]
  end; cbn [fst] in E2; subst r2.
  { exists (m1 + m2)%nat. cbn [fst]. apply Reader_advance_advance. }
  unfold binary_Read_uint32.
  match goal with |- context [io_ReadFull ?r0 4] =>
    destruct (io_ReadFull_reader r0 4) as (m3 & E3 & _);
    destruct (io_ReadFull r0 4) as [[r3 bs3] [e|]]
  end; cbn [fst] in E3; subst r3; exists (m1 + m2 + m3)%nat; cbn [fst];
    rewrite !Reader_advance_advance; f_equal; lia.
Qed.

Lemma DecodeDir_ok_reader (r r' : Reader) (order : ByteOrder) (base : Z)
  (d : ptr Dir) (off : Z) :
  DecodeDir DecodeTag r order base = (r', (d, off, None)) ->
  s r' = s r /\ i r + 6 <= i r' /\ 0 <= off < 4294967296
  /\ List.length (firstn 2 (from (i r) (s r))) = 2%nat.
Proof.
  intros H. apply DecodeDir_ok_inv in H as (bs & r2 & tags & E1 & E2 & E3 & _).
  apply binary_Read_uint32_inv in E3 as (-> & R).
  destruct (DecodeDir_tags_reader order base
              (Z.to_nat (int16 (Uint16 order bs))) (Reader_advance r 2) []) as [m E].
  rewrite E2 in E. cbn [fst] in E. subst r2.
  apply io_ReadFull_inv in E1 as (_ & -> & L).
  unfold Reader_advance. cbn [s i]. repeat split; lia.
Qed.


(** C6, as amended. A successful [DecodeDir] returns a directory; its tags
    are those that successive calls of [DecodeTag] decode, in this order,
    from the position after the 2-byte count; there are [max 0 n] of them,
    [n] being the count read as a signed 16-bit integer; the next-directory
    offset is the 4-byte value read where the last tag stopped. When a tag
    fails, [DecodeDir] returns the error of this tag and no directory, and no
    failing [DecodeDir] returns a directory. *)
Theorem DecodeDir_tags_then_next_offset (r : Reader) (order : ByteOrder) (base : Z) :
  (forall r' d off,
      DecodeDir DecodeTag r order base = (r', (d, off, None)) ->
      exists bs r2 tags,
        io_ReadFull r 2 = (Reader_advance r 2, bs, None)
        /\ d = Some (mkDir tags)
        /\ len tags = Z.max 0 (int16 (Uint16 order bs))
        /\ tags_decoded DecodeTag order base (Reader_advance r 2) tags r2
        /\ binary_Read_uint32 r2 order = (r', off, None))
  /\ (forall bs ts rj n t e,
        io_ReadFull r 2 = (Reader_advance r 2, bs, None) ->
        tags_decoded DecodeTag order base (Reader_advance r 2) ts rj ->
        len ts < int16 (Uint16 order bs) ->
        DecodeTag rj order base = (n, (t, Some e)) ->
        DecodeDir DecodeTag r order base = (Reader_advance rj n, (None, 0, Some e)))
  /\ (forall r' d off e,
        DecodeDir DecodeTag r order base = (r', (d, off, Some e)) ->
        d = None /\ off = 0).
Proof.
  split; [|split].
  - intros r' d off H.
    apply DecodeDir_ok_inv in H as (bs & r2 & tags & E1 & E2 & E3 & ->).
    apply DecodeDir_tags_ok in E2 as (ts & -> & L & T). simpl app.
    exists bs, r2, ts. repeat split; try assumption. unfold len. lia.
  - intros bs ts rj n t e E1 T Hlt Hf. unfold DecodeDir, binary_Read_int16.
    rewrite E1.
    rewrite (DecodeDir_tags_fail order base _ _ _ T _ [] n t e); [reflexivity| |exact Hf].
    unfold len in Hlt. lia.
  - intros r' d off e. unfold DecodeDir.
    destruct (binary_Read_int16 r order) as [[r1 n] [e1|]].
    { intros H. injection H as _ <- <- _. auto. }
    destruct (DecodeDir_tags _ _ _ _ _ _) as [[r2 tags] [e2|]].
    { intros H. injection H as _ <- <- _. auto. }
    destruct (binary_Read_uint32 r2 order) as [[r3 o] [e3|]]; [|discriminate].
    intros H. injection H as _ <- <- _. auto.
Qed.

(** C10. The tag count is read as a signed 16-bit integer. When the 2-byte
    count has its high bit set, the count is negative, the tag loop runs
    zero times, and [DecodeDir] goes on to read the next-directory offset
    right after the count: it returns an empty directory, or the error of
    this last read; the count itself raises no error. *)
Theorem negative_tag_count_decodes_no_tag (r r1 : Reader) (order : ByteOrder)
  (base : Z) (bs : list byte) :
  io_ReadFull r 2 = (r1, bs, None) ->
  32768 <= Uint16 order bs ->
  binary_Read_int16 r order = (r1, Uint16 order bs - 65536, None)
  /\ Uint16 order bs - 65536 < 0
  /\ DecodeDir_tags DecodeTag (Z.to_nat (Uint16 order bs - 65536)) r1 order base []
     = (r1, [], None)
  /\ DecodeDir DecodeTag r order base
     = (let '(r3, offset, err) := binary_Read_uint32 r1 order in
        match err with
        | Some e =>
            (r3, (None, 0,
                  Some (errors_New
                          ("tiff: falied to read offset to next IFD: " ++ Error e))))
        | None => (r3, (Some (mkDir []), offset, None))
        end).
Proof.
  intros E H. pose proof (Uint16_range order bs) as R.
  assert (binary_Read_int16 r order = (r1, Uint16 order bs - 65536, None)) as E16.
  { unfold binary_Read_int16. rewrite E, int16_high_bit by lia. reflexivity. }
  assert (Z.to_nat (Uint16 order bs - 65536) = 0%nat) as Z0 by lia.
  split; [exact E16|]. split; [lia|]. split.
  - rewrite Z0. reflexivity.
  - unfold DecodeDir. rewrite E16, Z0. reflexivity.
Qed.

(** ** The chain walks *)

Lemma Decode_iter_running (order : ByteOrder) (st st' : WalkState) :
  Decode_iter DecodeTag order st = Running st' ->
  exists buf' d off,
    DecodeDir DecodeTag (mkReader (s (w_buf st)) (w_offset st)) order 0
    = (buf', (d, off, None))
    /\ st' = mkWalk buf' off off (w_Dirs st ++ [d])
    /\ w_offset st <> 0 /\ off <> w_prev st.
Proof.
  unfold Decode_iter, Reader_Seek.
  destruct (w_offset st =? 0) eqn:E0; [discriminate|]. apply Z.eqb_neq in E0.
  destruct (w_offset st <? 0); [discriminate|].
  destruct (Reader_Len _ =? 0); [discriminate|].
  destruct (DecodeDir _ _ _ _) as [buf' [[d off] [e|]]]; [discriminate|].
  destruct (off =? w_prev st) eqn:Ep; [discriminate|]. apply Z.eqb_neq in Ep.
  intros H. injection H as <-. exists buf', d, off. auto.
Qed.

Lemma DecodeFile_iter_running (order : ByteOrder) (offset0 : Z) (st st' : WalkState) :
  DecodeFile_iter DecodeTag order offset0 st = Running st' ->
  exists buf' d off,
    DecodeDir DecodeTag (w_buf st) order offset0 = (buf', (d, off, None))
    /\ st' = mkWalk buf' off off (w_Dirs st ++ [d])
    /\ w_offset st <> 0 /\ off <> w_prev st.
Proof.
  unfold DecodeFile_iter.
  destruct (w_offset st =? 0) eqn:E0; [discriminate|]. apply Z.eqb_neq in E0.
  destruct (DecodeDir _ _ _ _) as [buf' [[d off] [e|]]]; [discriminate|].
  destruct (off =? w_prev st) eqn:Ep; [discriminate|]. apply Z.eqb_neq in Ep.
  intros H. injection H as <-. exists buf', d, off. auto.
Qed.

(** One turn of [Decode]'s loop at a non-zero offset: the seek cannot fail,
    the end-of-data test is next, then the directory. *)
Lemma Decode_iter_at (order : ByteOrder) (st : WalkState) :
  0 <= w_offset st -> w_offset st <> 0 ->
  Decode_iter DecodeTag order st =
  if len (s (w_buf st)) <=? w_offset st
  then Returned (None, Some ErrSeekAfterEOF)
  else
    let '(buf', (d, offset, err)) :=
      DecodeDir DecodeTag (mkReader (s (w_buf st)) (w_offset st)) order 0 in
    match err with
    | Some e => Returned (None, Some e)
    | None =>
        if offset =? w_prev st
        then Returned (None, Some ErrRecursive)
        else Running (mkWalk buf' offset offset (w_Dirs st ++ [d]))
    end.
Proof.
  intros H0 Hn. unfold Decode_iter, Reader_Seek, Reader_Len. cbn [s i].
  destruct (w_offset st =? 0) eqn:E0; [apply Z.eqb_eq in E0; contradiction|].
  destruct (w_offset st <? 0) eqn:El; [apply Z.ltb_lt in El; lia|]. cbn [s i].
  destruct (len (s (w_buf st)) <=? w_offset st) eqn:E; [reflexivity|].
  apply Z.leb_gt in E.
  destruct (len (s (w_buf st)) - w_offset st =? 0) eqn:E';
    [apply Z.eqb_eq in E'; lia | reflexivity].
Qed.

(** At the head of every iteration of [Decode]'s loop the reader still holds
    the stream, the offset is a [uint32], and [prev] equals it. *)
Lemma Decode_head_inv (data : list byte) (order : ByteOrder) (n : nat) :
  forall st0 st,
    s (w_buf st0) = data -> 0 <= w_offset st0 -> w_prev st0 = w_offset st0 ->
    head_of_iteration WalkState (Decode_iter DecodeTag order) n st0 = Some st ->
    s (w_buf st) = data /\ 0 <= w_offset st /\ w_prev st = w_offset st.
Proof.
  induction n as [|n IH]; intros st0 st Hs H0 Hp H; simpl in H.
  - injection H as <-. auto.
  - destruct (Decode_iter DecodeTag order st0) as [st1|res] eqn:E; [|discriminate].
    apply Decode_iter_running in E as (buf' & d & off & ED & -> & _ & _).
    apply DecodeDir_ok_reader in ED as (Es & _ & R & _). cbn [s] in Es.
    apply (IH _ _) in H; cbn; try lia; congruence.
Qed.

Lemma DecodeFile_head_inv (window : list byte) (order : ByteOrder) (offset0 : Z)
  (n : nat) :
  forall st0 st,
    s (w_buf st0) = window -> w_prev st0 = w_offset st0 ->
    head_of_iteration WalkState (DecodeFile_iter DecodeTag order offset0) n st0 = Some st ->
    s (w_buf st) = window /\ w_prev st = w_offset st.
Proof.
  induction n as [|n IH]; intros st0 st Hs Hp H; simpl in H.
  - injection H as <-. auto.
  - destruct (DecodeFile_iter DecodeTag order offset0 st0) as [st1|res] eqn:E;
      [|discriminate].
    apply DecodeFile_iter_running in E as (buf' & d & off & ED & -> & _ & _).
    apply DecodeDir_ok_reader in ED as (Es & _ & R & _).
    apply (IH _ _) in H; cbn; congruence.
Qed.

Lemma first_offset_range (order : ByteOrder) (data : list byte) (offset0 : Z) :
  first_offset order data = Some offset0 -> 0 <= offset0 < 4294967296.
Proof.
  unfold first_offset. destruct (_ =? _)%nat; [|discriminate].
  intros H. injection H as <-. apply Uint32_range.
Qed.

Lemma Decode_reaches_inv (data : list byte) (order : ByteOrder) (offset0 : Z)
  (n : nat) (st : WalkState) :
  tiff_header data = Some (order, offset0) ->
  head_of_iteration WalkState (Decode_iter DecodeTag order) n (Decode_start data offset0)
  = Some st ->
  s (w_buf st) = data /\ 0 <= w_offset st /\ w_prev st = w_offset st.
Proof.
  intros Hh H. apply tiff_header_inv in Hh as (_ & _ & Ho).
  apply first_offset_range in Ho.
  eapply Decode_head_inv; [| | |exact H]; cbn; [reflexivity|lia|reflexivity].
Qed.


(** C4, as amended. [Decode] seeks to every directory: whenever it decodes
    a directory whose next-directory offset is the directory's own offset, it
    fails with the recursive-IFD error. [DecodeFile] does not seek: it fails
    with this error whenever the directory it decodes at its cursor names
    the offset that the chain gave for it (the header's first-directory
    offset, or the next-directory offset of the directory before); this is
    the directory's own offset whenever the cursor stands where the chain
    says, as it does for the first directory and for directories that lie
    back to back. *)
Theorem self_cycle_rejected (data : list byte) (order : ByteOrder) (offset0 : Z) :
  tiff_header data = Some (order, offset0) ->
  (forall n st buf' d,
      head_of_iteration WalkState (Decode_iter DecodeTag order) n
        (Decode_start data offset0) = Some st ->
      w_offset st <> 0 ->
      DecodeDir DecodeTag (mkReader data (w_offset st)) order 0
      = (buf', (d, w_offset st, None)) ->
      forall fuel, (n <= fuel)%nat ->
        Decode DecodeTag fuel (stream data) = Some (None, Some ErrRecursive))
  /\ (forall n st buf' d,
        head_of_iteration WalkState (DecodeFile_iter DecodeTag order offset0) n
          (DecodeFile_start data offset0) = Some st ->
        w_offset st <> 0 ->
        DecodeDir DecodeTag (w_buf st) order offset0 = (buf', (d, w_offset st, None)) ->
        forall fuel, (n <= fuel)%nat ->
          DecodeFile DecodeTag fuel (os_Open data) = Some (None, Some ErrRecursive))
  /\ (forall n st buf' d,
        head_of_iteration WalkState (DecodeFile_iter DecodeTag order offset0) n
          (DecodeFile_start data offset0) = Some st ->
        w_offset st <> 0 ->
        w_offset st = offset0 + i (w_buf st) ->
        DecodeDir DecodeTag (w_buf st) order offset0
        = (buf', (d, offset0 + i (w_buf st), None)) ->
        forall fuel, (n <= fuel)%nat ->
          DecodeFile DecodeTag fuel (os_Open data) = Some (None, Some ErrRecursive)).
Proof.
  intros Hh.
  assert (forall n st buf' d,
             head_of_iteration WalkState (DecodeFile_iter DecodeTag order offset0) n
               (DecodeFile_start data offset0) = Some st ->
             w_offset st <> 0 ->
             DecodeDir DecodeTag (w_buf st) order offset0
             = (buf', (d, w_offset st, None)) ->
             forall fuel, (n <= fuel)%nat ->
               DecodeFile DecodeTag fuel (os_Open data) = Some (None, Some ErrRecursive))
    as HF.
  { intros n st buf' d H Hn ED fuel Hle.
    rewrite (DecodeFile_after_header _ _ _ _ Hh).
    apply (DecodeFile_head_inv (from offset0 data)) in H as Hi;
      [|reflexivity|reflexivity]. destruct Hi as (_ & Hp).
    apply (walk_returns_at_head _ _ n fuel _ st); [exact H| |exact Hle].
    unfold DecodeFile_iter.
    destruct (w_offset st =? 0) eqn:E0; [apply Z.eqb_eq in E0; contradiction|].
    rewrite ED, Hp, Z.eqb_refl. reflexivity. }
  split; [|split; [exact HF|]].
  - intros n st buf' d H Hn ED fuel Hle.
    rewrite (Decode_after_header _ _ _ _ Hh).
    destruct (Decode_reaches_inv _ _ _ _ _ Hh H) as (Hs & H0 & Hp).
    apply (walk_returns_at_head _ _ n fuel _ st); [exact H| |exact Hle].
    rewrite Decode_iter_at by assumption. rewrite Hs, ED, Hp, Z.eqb_refl.
    apply DecodeDir_ok_reader in ED as (_ & _ & _ & L). cbn [s i] in L.
    apply firstn_from_full in L; [|assumption|lia].
    destruct (len data <=? w_offset st) eqn:E; [apply Z.leb_le in E; lia|reflexivity].
  - intros n st buf' d H Hn Hc ED fuel Hle. rewrite <- Hc in ED.
    eapply HF; eassumption.
Qed.

(** C7. When the walk of [Decode] is to follow a non-zero directory offset
    that lies at or beyond the end of the data, [Decode] fails with the
    seek-after-end error; no directory is decoded there. *)
Theorem offset_past_end_rejected (data : list byte) (order : ByteOrder)
  (offset0 : Z) (n : nat) (st : WalkState) :
  tiff_header data = Some (order, offset0) ->
  head_of_iteration WalkState (Decode_iter DecodeTag order) n
    (Decode_start data offset0) = Some st ->
  w_offset st <> 0 ->
  len data <= w_offset st ->
  forall fuel, (n <= fuel)%nat ->
    Decode DecodeTag fuel (stream data) = Some (None, Some ErrSeekAfterEOF).
Proof.
  intros Hh H Hn Hle fuel Hf.
  rewrite (Decode_after_header _ _ _ _ Hh).
  destruct (Decode_reaches_inv _ _ _ _ _ Hh H) as (Hs & H0 & Hp).
  apply (walk_returns_at_head _ _ n fuel _ st); [exact H| |exact Hf].
  rewrite Decode_iter_at by assumption. rewrite Hs.
  destruct (len data <=? w_offset st) eqn:E; [reflexivity|apply Z.leb_gt in E; lia].
Qed.

Lemma Decode_error_nil (fuel : nat) (r : io_Reader) (t : ptr Tiff) (e : error) :
  Decode DecodeTag fuel r = Some (t, Some e) -> t = None.
Proof.
  unfold Decode.
  destruct (ioutil_ReadAll r) as [data [e0|]].
  { intros H. now injection H as <- _. }
  destruct (io_ReadFull _ 2) as [[buf bo] [e0|]].
  { intros H. now injection H as <- _. }
  destruct (if string_eq bo "II" then Some LittleEndian
            else if string_eq bo "MM" then Some BigEndian else None) as [order|].
  2:{ intros H. now injection H as <- _. }
  destruct (binary_Read_int16 buf order) as [[buf1 sp] err].
  destruct (_ || _).
  { intros H. now injection H as <- _. }
  destruct (binary_Read_uint32 buf1 order) as [[buf2 off] [e0|]].
  { intros H. now injection H as <- _. }
  intros H.
  apply (walk_returned _ _ (fun res => forall e, snd res = Some e -> fst res = None))
    with (e := e) in H; [exact H| |reflexivity].
  intros st res E e1 He.
  apply Decode_iter_returned in E as [[_ ->]|[_ [e2 ->]]]; [discriminate|reflexivity].
Qed.

Lemma DecodeFile_error_nil (fuel : nat) (f : File) (t : ptr Tiff) (e : error) :
  DecodeFile DecodeTag fuel f = Some (t, Some e) -> t = None.
Proof.
  unfold DecodeFile.
  destruct (File_ReadFull f 2) as [[f1 bo] [e0|]].
  { intros H. now injection H as <- _. }
  destruct (if string_eq bo "II" then Some LittleEndian
            else if string_eq bo "MM" then Some BigEndian else None) as [order|].
  2:{ intros H. now injection H as <- _. }
  destruct (File_ReadFull f1 2) as [[f2 spbuf] [e0|]].
  { intros H. now injection H as <- _. }
  destruct (binary_Read_int16 _ order) as [[buf1 sp] err].
  destruct (_ || _).
  { intros H. now injection H as <- _. }
  destruct (File_ReadFull f2 4) as [[f3 offsetbuf] [e0|]].
  { intros H. now injection H as <- _. }
  destruct (binary_Read_uint32 _ order) as [[buf2 off] [e0|]].
  { intros H. now injection H as <- _. }
  destruct (File_Seek f3 off) as [[f4 a] [e0|]].
  { intros H. now injection H as <- _. }
  destruct (File_ReadAll f4) as [[f5 rest] err5].
  intros H.
  apply (walk_returned _ _ (fun res => forall e, snd res = Some e -> fst res = None))
    with (e := e) in H; [exact H| |reflexivity].
  intros st res E e1 He.
  apply DecodeFile_iter_returned in E as [[_ ->]|[_ [e2 ->]]]; [discriminate|reflexivity].
Qed.

(** X14. An error comes with no [Tiff]: whenever [Decode] or [DecodeFile]
    returns an error, the [Tiff] result is nil, for every reader and every
    file, read faults included. And on a stream held in memory or a file that
    reads without fault, a header that fails, or the first directory that
    fails to decode, be it at its count, at one of its tags or at its
    next-directory offset, ends the decode with its error. *)
Theorem error_aborts_without_result :
  (forall fuel r t e, Decode DecodeTag fuel r = Some (t, Some e) -> t = None)
  /\ (forall fuel f t e, DecodeFile DecodeTag fuel f = Some (t, Some e) -> t = None)
  /\ (forall data order offset0 n st buf' d off e fuel,
        tiff_header data = Some (order, offset0) ->
        head_of_iteration WalkState (Decode_iter DecodeTag order) n
          (Decode_start data offset0) = Some st ->
        w_offset st <> 0 ->
        w_offset st < len data ->
        DecodeDir DecodeTag (mkReader data (w_offset st)) order 0
        = (buf', (d, off, Some e)) ->
        (n <= fuel)%nat ->
        Decode DecodeTag fuel (stream data) = Some (None, Some e))
  /\ (forall data order offset0 n st buf' d off e fuel,
        tiff_header data = Some (order, offset0) ->
        head_of_iteration WalkState (DecodeFile_iter DecodeTag order offset0) n
          (DecodeFile_start data offset0) = Some st ->
        w_offset st <> 0 ->
        DecodeDir DecodeTag (w_buf st) order offset0 = (buf', (d, off, Some e)) ->
        (n <= fuel)%nat ->
        DecodeFile DecodeTag fuel (os_Open data) = Some (None, Some e))
  /\ (forall data fuel,
        tiff_header data = None ->
        exists e1 e2,
          Decode DecodeTag fuel (stream data) = Some (None, Some e1)
          /\ DecodeFile DecodeTag fuel (os_Open data) = Some (None, Some e2)).
Proof.
  split; [exact Decode_error_nil|]. split; [exact DecodeFile_error_nil|].
  split; [|split].
  3:{ intros data fuel H. rewrite Decode_header, DecodeFile_header.
      unfold tiff_header in H.
      destruct (marker_order data) as [order|]; [|eauto].
      destruct (magic order data) as [sp|]; [|eauto].
      destruct (42 =? sp); [|eauto].
      destruct (first_offset order data); [discriminate|eauto]. }
  - intros data order offset0 n st buf' d off e fuel Hh H Hn Hlt ED Hf.
    rewrite (Decode_after_header _ _ _ _ Hh).
    destruct (Decode_reaches_inv _ _ _ _ _ Hh H) as (Hs & H0 & Hp).
    apply (walk_returns_at_head _ _ n fuel _ st); [exact H| |exact Hf].
    rewrite Decode_iter_at by assumption. rewrite Hs, ED.
    destruct (len data <=? w_offset st) eqn:E; [apply Z.leb_le in E; lia|reflexivity].
  - intros data order offset0 n st buf' d off e fuel Hh H Hn ED Hf.
    rewrite (DecodeFile_after_header _ _ _ _ Hh).
    apply (walk_returns_at_head _ _ n fuel _ st); [exact H| |exact Hf].
    unfold DecodeFile_iter.
    destruct (w_offset st =? 0) eqn:E0; [apply Z.eqb_eq in E0; contradiction|].
    rewrite ED. reflexivity.
Qed.


(** ** Termination *)

Lemma DecodeDir_two_cycle_at_8 :
  DecodeDir DecodeTag (mkReader stream_two_cycle 8) LittleEndian 0
  = (mkReader stream_two_cycle 14, (Some (mkDir []), 14, None)).
Proof. reflexivity. Qed.

Lemma DecodeDir_two_cycle_at_14 :
  DecodeDir DecodeTag (mkReader stream_two_cycle 14) LittleEndian 0
  = (mkReader stream_two_cycle 20, (Some (mkDir []), 8, None)).
Proof. reflexivity. Qed.

(** C5, at the failing input. On the stream whose directory at offset 8
    names 14 as the next one and whose directory at 14 names 8, the loop of
    [Decode] alternates between the two offsets for ever: no amount of fuel
    makes [Decode] return, neither a result nor an error. *)
Theorem Decode_two_cycle_never_returns (fuel : nat) :
  Decode DecodeTag fuel (stream stream_two_cycle) = None.
Proof.
  rewrite (Decode_after_header fuel stream_two_cycle LittleEndian 8) by reflexivity.
  apply (walk_diverges _ _
           (fun st => s (w_buf st) = stream_two_cycle
                      /\ w_prev st = w_offset st
                      /\ (w_offset st = 8 \/ w_offset st = 14))).
  2:{ cbn. auto. }
  intros st (Hs & Hp & [H|H]);
    (rewrite Decode_iter_at by lia); rewrite Hs, Hp, H.
  - change (len stream_two_cycle <=? 8) with false. cbv iota.
    rewrite DecodeDir_two_cycle_at_8. change (14 =? 8) with false. cbv iota.
    eexists. split; [reflexivity|]. cbn. auto.
  - change (len stream_two_cycle <=? 14) with false. cbv iota.
    rewrite DecodeDir_two_cycle_at_14. change (8 =? 14) with false. cbv iota.
    eexists. split; [reflexivity|]. cbn. auto.
Qed.

Lemma DecodeDir_ok_room (r r' : Reader) (order : ByteOrder) (base : Z)
  (d : ptr Dir) (off : Z) :
  DecodeDir DecodeTag r order base = (r', (d, off, None)) ->
  0 <= i r -> s r' = s r /\ i r + 6 <= i r' <= len (s r).
Proof.
  intros H H0. pose proof (DecodeDir_ok_reader _ _ _ _ _ _ H) as (Hs & Hi & _ & _).
  apply DecodeDir_ok_inv in H as (bs & r2 & tags & E1 & E2 & E3 & _).
  destruct (DecodeDir_tags_reader order base
              (Z.to_nat (int16 (Uint16 order bs))) (Reader_advance r 2) []) as [m E].
  rewrite E2 in E. cbn [fst] in E. subst r2.
  unfold binary_Read_uint32 in E3.
  destruct (io_ReadFull _ 4) as [[r3 b4] [e|]] eqn:E4; [discriminate|].
  apply io_ReadFull_inv in E4 as (-> & -> & L). injection E3 as <- _.
  revert L. unfold Reader_advance, len, from. cbn [s i].
  rewrite length_firstn, length_skipn. intros L.
  repeat split; lia.
Qed.

(** The loop of [DecodeFile] reads one window from front to back, at least
    6 bytes a turn: [fuel] turns are enough when the window has no more than
    [fuel] bytes left. *)
Lemma DecodeFile_walk_terminates (order : ByteOrder) (offset0 : Z) (fuel : nat) :
  forall st,
    0 <= i (w_buf st) ->
    len (s (w_buf st)) - i (w_buf st) <= Z.of_nat fuel ->
    exists res,
      walk WalkState (DecodeFile_iter DecodeTag order offset0) fuel st = Some res.
Proof.
  induction fuel as [|fuel IH]; intros st H0 Hm; simpl;
    destruct (DecodeFile_iter DecodeTag order offset0 st) as [st'|res] eqn:E;
    try (eexists; reflexivity);
    apply DecodeFile_iter_running in E as (buf' & d & off & ED & -> & _ & _);
    apply DecodeDir_ok_room in ED as (Hs & Hi); try assumption.
  - lia.
  - apply IH; cbn [w_buf]; rewrite ?Hs; lia.
Qed.

(** X1. [DecodeFile] returns on every file: as many turns as the file has
    bytes are enough. *)
Lemma DecodeFile_terminates (f : File) :
  exists res, forall fuel,
    (List.length (content f) <= fuel)%nat ->
    DecodeFile DecodeTag fuel f = Some res.
Proof.
  unfold DecodeFile.
  destruct (File_ReadFull f 2) as [[f1 bo] [e0|]] eqn:E1; [eexists; reflexivity|].
  destruct (if string_eq bo "II" then Some LittleEndian
            else if string_eq bo "MM" then Some BigEndian else None) as [order|];
    [|eexists; reflexivity].
  destruct (File_ReadFull f1 2) as [[f2 spbuf] [e0|]] eqn:E2; [eexists; reflexivity|].
  destruct (binary_Read_int16 _ order) as [[buf1 sp] err].
  destruct (_ || _); [eexists; reflexivity|].
  destruct (File_ReadFull f2 4) as [[f3 offsetbuf] [e0|]] eqn:E3; [eexists; reflexivity|].
  destruct (binary_Read_uint32 _ order) as [[buf2 off] [e0|]]; [eexists; reflexivity|].
  unfold File_Seek, File_ReadAll.
  destruct (off <? 0); [eexists; reflexivity|]. cbn [content pos read_err].
  assert (content f3 = content f) as Hc.
  { unfold File_ReadFull in E1, E2, E3.
    injection E1 as <- _ _. injection E2 as <- _ _. injection E3 as <- _ _.
    reflexivity. }
  destruct (DecodeFile_walk_terminates order off (List.length (content f))
              (mkWalk (bytes_NewReader (from off (content f3))) off off []))
    as [res Hres].
  { cbn. lia. }
  { cbn [w_buf bytes_NewReader s i]. rewrite Hc. unfold len, from.
    rewrite length_skipn. lia. }
  exists res. intros fuel Hf. eapply walk_more_fuel; eassumption.
Qed.

End DecoderFacts.

(** ** The two entry points on one stream *)

Lemma from_window (base p : Z) (data : list byte) :
  0 <= base <= p -> from (p - base) (from base data) = from p data.
Proof. intros H. rewrite from_from by lia. f_equal. lia. Qed.

Lemma into_window_advance (base : Z) (r : Reader) (n : nat) :
  Reader_advance (into_window base r) n = into_window base (Reader_advance r n).
Proof. unfold Reader_advance, into_window. cbn [s i]. f_equal. lia. Qed.

Lemma io_ReadFull_window (base : Z) (r : Reader) (n : nat) :
  0 <= base <= i r ->
  io_ReadFull (into_window base r) n
  = (let '(r', b, err) := io_ReadFull r n in (into_window base r', b, err)).
Proof.
  intros H. unfold io_ReadFull, into_window. cbn [s i].
  rewrite from_window by assumption.
  set (b := firstn n (from (i r) (s r))).
  replace (i r - base + len b) with (i r + len b - base) by lia. reflexivity.
Qed.

Lemma binary_Read_int16_window (base : Z) (r : Reader) (order : ByteOrder) :
  0 <= base <= i r ->
  binary_Read_int16 (into_window base r) order
  = (let '(r', x, err) := binary_Read_int16 r order in (into_window base r', x, err)).
Proof.
  intros H. unfold binary_Read_int16. rewrite io_ReadFull_window by assumption.
  destruct (io_ReadFull r 2) as [[r' b] [e|]]; reflexivity.
Qed.

Lemma binary_Read_uint32_window (base : Z) (r : Reader) (order : ByteOrder) :
  0 <= base <= i r ->
  binary_Read_uint32 (into_window base r) order
  = (let '(r', x, err) := binary_Read_uint32 r order in (into_window base r', x, err)).
Proof.
  intros H. unfold binary_Read_uint32. rewrite io_ReadFull_window by assumption.
  destruct (io_ReadFull r 4) as [[r' b] [e|]]; reflexivity.
Qed.

(** A tag that [DecodeTag] decodes took its 12 bytes from the reader. *)
Lemma DecodeTag_ok_consumed (r : Reader) (order : ByteOrder) (base : Z) (n : nat)
  (t : ptr Tag) :
  DecodeTag r order base = (n, (t, None)) ->
  n = 12%nat /\ List.length (firstn 12 (from (i r) (s r))) = 12%nat.
Proof.
  unfold DecodeTag.
  destruct (io_ReadFull r 12) as [[r' b] [e|]] eqn:E; [discriminate|].
  apply io_ReadFull_inv in E as (_ & -> & L). rewrite L. intros H.
  split; [|reflexivity].
  destruct (valLen _ <=? 4); [now injection H|].
  destruct (_ || _); [discriminate|].
  destruct (Reader_ReadAt _ _ _) as [raw [e|]]; [discriminate|]. now injection H.
Qed.

(** On an entry that is local to the window, [DecodeTag] does in the window
    what it does on the whole stream, failures included. *)
Lemma DecodeTag_window (base : Z) (r : Reader) (order : ByteOrder) :
  0 <= base <= i r -> base <= len (s r) ->
  entry_local order base (parse_entry order (firstn 12 (from (i r) (s r)))) = true ->
  DecodeTag (into_window base r) order base = DecodeTag r order 0.
Proof.
  intros H Hl Hloc. unfold DecodeTag. rewrite io_ReadFull_window by assumption.
  unfold io_ReadFull.
  set (b := firstn 12 (from (i r) (s r))) in *.
  destruct (List.length b =? 12)%nat; [|destruct (List.length b =? 0)%nat; reflexivity].
  unfold entry_local in Hloc. set (e := parse_entry order b) in *.
  destruct (valLen e <=? 4) eqn:Ev; [reflexivity|].
  simpl orb in Hloc. apply Z.leb_le in Hloc.
  pose proof (Uint32_range order (e_slot e)) as R. fold (ValOffset order e) in R.
  unfold into_window. cbn [s i].
  rewrite len_from by lia. rewrite Z.sub_0_r.
  replace (ValOffset order e - base <? 0) with false
    by (symmetry; apply Z.ltb_ge; lia).
  replace (ValOffset order e <? 0) with false
    by (symmetry; apply Z.ltb_ge; lia).
  replace (len (s r) - base <=? ValOffset order e - base)
    with (len (s r) <=? ValOffset order e)
    by (destruct (len (s r) <=? ValOffset order e) eqn:E; symmetry;
        [apply Z.leb_le; apply Z.leb_le in E | apply Z.leb_gt; apply Z.leb_gt in E];
        lia).
  cbn [orb].
  destruct (len (s r) <=? ValOffset order e) eqn:E; [reflexivity|].
  unfold Reader_ReadAt. cbn [s i].
  rewrite len_from by lia.
  replace (ValOffset order e - base <? 0) with false
    by (symmetry; apply Z.ltb_ge; lia).
  replace (ValOffset order e <? 0) with false
    by (symmetry; apply Z.ltb_ge; lia).
  replace (len (s r) - base <=? ValOffset order e - base) with false
    by (symmetry; apply Z.leb_gt; apply Z.leb_gt in E; lia).
  rewrite E. rewrite from_window by lia. reflexivity.
Qed.

(** On a complete entry whose value lies before the window, [DecodeTag]
    fails in the window: the reference cannot be resolved. *)
Lemma DecodeTag_before_window (base : Z) (r : Reader) (order : ByteOrder) :
  0 <= base <= i r ->
  List.length (firstn 12 (from (i r) (s r))) = 12%nat ->
  entry_local order base (parse_entry order (firstn 12 (from (i r) (s r)))) = false ->
  DecodeTag (into_window base r) order base
  = (12%nat, (None, Some ErrUnresolvableReference)).
Proof.
  intros H L Hloc. unfold DecodeTag. rewrite io_ReadFull_window by assumption.
  rewrite io_ReadFull_ok by assumption. rewrite L.
  unfold entry_local in Hloc. apply orb_false_iff in Hloc as [Hv Hb].
  rewrite Hv. apply Z.leb_gt in Hb.
  replace (_ - base <? 0) with true by (symmetry; apply Z.ltb_lt; lia).
  reflexivity.
Qed.

Lemma DecodeDir_tags_window (order : ByteOrder) (base : Z) (k : nat) :
  forall r acc,
    0 <= base <= i r -> base <= len (s r) ->
    forallb (entry_local order base) (entries_from order (s r) (i r) k) = true ->
    DecodeDir_tags DecodeTag k (into_window base r) order base acc
    = (let '(r', tags, err) := DecodeDir_tags DecodeTag k r order 0 acc in
       (into_window base r', tags, err)).
Proof.
  induction k as [|k IH]; intros r acc H Hl Hloc; [reflexivity|].
  cbn [entries_from forallb] in Hloc. apply andb_true_iff in Hloc as [Hloc Hrest].
  cbn [DecodeDir_tags]. rewrite DecodeTag_window by assumption.
  destruct (DecodeTag r order 0) as [n [t [e|]]] eqn:E.
  - rewrite into_window_advance. reflexivity.
  - apply DecodeTag_ok_consumed in E as [-> _].
    rewrite into_window_advance. apply IH; cbn [Reader_advance s i]; try lia.
    exact Hrest.
Qed.

Lemma DecodeDir_tags_before_window (order : ByteOrder) (base : Z) (k : nat) :
  forall r acc r' tags,
    0 <= base <= i r -> base <= len (s r) ->
    DecodeDir_tags DecodeTag k r order 0 acc = (r', tags, None) ->
    forallb (entry_local order base) (entries_from order (s r) (i r) k) = false ->
    exists r'' tags',
      DecodeDir_tags DecodeTag k (into_window base r) order base acc
      = (r'', tags', Some ErrUnresolvableReference).
Proof.
  induction k as [|k IH]; intros r acc r' tags H Hl Hok Hloc; [discriminate|].
  cbn [entries_from forallb] in Hloc. cbn [DecodeDir_tags] in Hok |- *.
  destruct (DecodeTag r order 0) as [n [t [e|]]] eqn:E; [discriminate|].
  apply DecodeTag_ok_consumed in E as E'. destruct E' as [-> L].
  destruct (entry_local order base
              (parse_entry order (firstn 12 (from (i r) (s r))))) eqn:E0;
    cbn [andb] in Hloc.
  - rewrite DecodeTag_window, E by assumption. rewrite into_window_advance.
    eapply IH; [| |exact Hok|exact Hloc]; cbn [Reader_advance s i]; lia.
  - rewrite DecodeTag_before_window by assumption. eauto.
Qed.

(** Under locality, [DecodeDir] in the window is [DecodeDir] on the stream. *)
Lemma DecodeDir_window (order : ByteOrder) (base : Z) (r : Reader) :
  0 <= base <= i r -> base <= len (s r) ->
  forallb (entry_local order base) (dir_entries order (s r) (i r)) = true ->
  DecodeDir DecodeTag (into_window base r) order base
  = (let '(r', res) := DecodeDir DecodeTag r order 0 in (into_window base r', res)).
Proof.
  intros H Hl Hloc. unfold DecodeDir. rewrite binary_Read_int16_window by assumption.
  unfold binary_Read_int16, dir_entries in *.
  destruct (io_ReadFull r 2) as [[r1 bs] [e|]] eqn:E1; [reflexivity|].
  apply io_ReadFull_inv in E1 as (-> & -> & _).
  rewrite DecodeDir_tags_window; cbn [Reader_advance s i]; try lia; [|exact Hloc].
  match goal with |- context [DecodeDir_tags DecodeTag ?k ?r0 order 0 []] =>
    destruct (DecodeDir_tags_reader DecodeTag order 0 k r0 []) as [m Em];
    destruct (DecodeDir_tags DecodeTag k r0 order 0 []) as [[r2 tags] [e|]]
  end; [reflexivity|].
  cbn [fst] in Em. subst r2.
  rewrite binary_Read_uint32_window by (cbn [Reader_advance s i]; lia).
  destruct (binary_Read_uint32 _ order) as [[r3 off] [e|]]; reflexivity.
Qed.

Lemma DecodeDir_before_window (order : ByteOrder) (base : Z) (r r' : Reader)
  (d : ptr Dir) (off : Z) :
  0 <= base <= i r -> base <= len (s r) ->
  DecodeDir DecodeTag r order 0 = (r', (d, off, None)) ->
  forallb (entry_local order base) (dir_entries order (s r) (i r)) = false ->
  exists r'',
    DecodeDir DecodeTag (into_window base r) order base
    = (r'', (None, 0, Some ErrUnresolvableReference)).
Proof.
  intros H Hl Hok Hloc.
  apply DecodeDir_ok_inv in Hok as (bs & r2 & tags & E1 & E2 & _ & _).
  unfold DecodeDir. rewrite binary_Read_int16_window by assumption.
  unfold binary_Read_int16, dir_entries in *. rewrite E1.
  apply io_ReadFull_inv in E1 as (_ & -> & _).
  eapply DecodeDir_tags_before_window in E2 as (r'' & tags' & ->);
    cbn [Reader_advance s i]; try lia; [eauto|exact Hloc].
Qed.

(** The directories that a walk has collected are part of what it returns. *)
Lemma Decode_walk_dirs (order : ByteOrder) (fuel : nat) :
  forall st t e,
    walk WalkState (Decode_iter DecodeTag order) fuel st = Some (Some t, e) ->
    (List.length (w_Dirs st) <= List.length (Dirs t))%nat.
Proof.
  induction fuel as [|fuel IH]; intros st t e H; simpl in H;
    destruct (Decode_iter DecodeTag order st) as [st'|res] eqn:E; try discriminate;
    try (injection H as ->;
         apply Decode_iter_returned in E as [[_ E]|[_ [e1 E]]]; [|discriminate];
         injection E as -> _; cbn; lia).
  apply Decode_iter_running in E as (buf' & d & off & _ & -> & _ & _).
  apply IH in H. cbn [w_Dirs] in H. rewrite length_app in H. simpl in H. lia.
Qed.

(** What a decode that returns exactly one directory went through: one turn
    that decoded this directory with a next-directory offset of 0. *)
Lemma Decode_one_directory (data : list byte) (order : ByteOrder) (offset0 : Z)
  (fuel : nat) (t : Tiff) :
  walk WalkState (Decode_iter DecodeTag order) fuel (Decode_start data offset0)
  = Some (Some t, None) ->
  List.length (Dirs t) = 1%nat ->
  exists buf' d,
    DecodeDir DecodeTag (mkReader data offset0) order 0 = (buf', (d, 0, None))
    /\ offset0 <> 0 /\ t = mkTiff [d] order /\ (1 <= fuel)%nat.
Proof.
  intros H L1.
  destruct fuel as [|fuel]; simpl in H;
    destruct (Decode_iter DecodeTag order (Decode_start data offset0))
      as [st'|res] eqn:E; try discriminate;
    try (injection H as ->;
         apply Decode_iter_returned in E as [[_ E]|[_ [e1 E]]]; [|discriminate];
         injection E as ->; discriminate).
  apply Decode_iter_running in E as (buf' & d & off & ED & -> & Hn & Hp).
  cbn [Decode_start w_buf w_offset w_prev w_Dirs s app] in *.
  exists buf', d.
  assert (off = 0 /\ t = mkTiff [d] order) as [-> ->].
  { destruct fuel as [|fuel']; simpl in H;
      destruct (Decode_iter DecodeTag order (mkWalk buf' off off [d]))
        as [st2|res] eqn:E2; try discriminate.
    - injection H as ->.
      apply Decode_iter_returned in E2 as [[E0 E]|[_ [e1 E]]]; [|discriminate].
      injection E as ->. auto.
    - apply Decode_iter_running in E2 as (buf2 & d2 & off2 & _ & -> & _ & _).
      apply Decode_walk_dirs in H. cbn in H. lia.
    - injection H as ->.
      apply Decode_iter_returned in E2 as [[E0 E]|[_ [e1 E]]]; [|discriminate].
      injection E as ->. auto. }
  repeat split; [exact ED | exact Hn | lia].
Qed.

Lemma DecodeFile_start_window (data : list byte) (offset0 : Z) :
  DecodeFile_start data offset0
  = mkWalk (into_window offset0 (mkReader data offset0)) offset0 offset0 [].
Proof.
  unfold DecodeFile_start, into_window, bytes_NewReader. cbn [s i].
  rewrite Z.sub_diag. reflexivity.
Qed.

(** C1. A stream is a well-formed single-directory stream when [Decode]
    accepts it and returns exactly one directory. If every entry of this
    directory has its value inline or at an offset that is not before the
    first directory's offset, [DecodeFile] returns what [Decode] returns: the
    same byte order and the same directory, with the same tags, in the same
    order. *)
Theorem fast_decode_agrees_on_local_single_directory (data : list byte)
  (order : ByteOrder) (offset0 : Z) (fuel : nat) (t : Tiff) :
  tiff_header data = Some (order, offset0) ->
  Decode DecodeTag fuel (stream data) = Some (Some t, None) ->
  List.length (Dirs t) = 1%nat ->
  locality order offset0 data = true ->
  DecodeFile DecodeTag fuel (os_Open data) = Some (Some t, None).
Proof.
  intros Hh HD L1 Hloc.
  rewrite (Decode_after_header _ _ _ _ _ Hh) in HD.
  apply Decode_one_directory in HD as (buf' & d & ED & Hn & -> & Hf); [|exact L1].
  rewrite (DecodeFile_after_header _ _ _ _ _ Hh), DecodeFile_start_window.
  apply tiff_header_inv in Hh as (_ & _ & Ho). apply first_offset_range in Ho.
  pose proof (DecodeDir_ok_reader _ _ _ _ _ _ _ ED) as (_ & _ & _ & L).
  cbn [s i] in L. apply firstn_from_full in L; [|lia|lia].
  destruct fuel as [|fuel]; [lia|]. cbn [walk].
  unfold DecodeFile_iter at 1. cbn [w_buf w_offset w_prev w_Dirs].
  destruct (offset0 =? 0) eqn:E0; [apply Z.eqb_eq in E0; contradiction|].
  rewrite DecodeDir_window; cbn [s i]; try lia; [|exact Hloc].
  rewrite ED.
  destruct (0 =? offset0) eqn:E1; [apply Z.eqb_eq in E1; congruence|].
  destruct fuel; reflexivity.
Qed.


(** ** The theorems at work on the example streams *)

(** The spec's section 8, property 7, on both entry points: one directory,
    one tag 0x0100 of type unsigned short, count 1, value 100. *)
Example decode_stream_inline :
  Decode DecodeTag 1 (stream stream_inline)
  = Some (Some (mkTiff [Some (mkDir [Some (mkTag 256 3 1 [IntVal 100])])]
                       LittleEndian), None)
  /\ DecodeFile DecodeTag 1 (os_Open stream_inline)
     = Decode DecodeTag 1 (stream stream_inline).
Proof. split; reflexivity. Qed.


Lemma fast_decode_agrees_witness :
  exists t,
    Decode DecodeTag 1 (stream stream_local) = Some (Some t, None)
    /\ DecodeFile DecodeTag 1 (os_Open stream_local) = Some (Some t, None).
Proof.
  eexists. split; [reflexivity|].
  apply (fast_decode_agrees_on_local_single_directory stream_local LittleEndian 8 1);
    reflexivity.
Defined.


(** C2, the counterexample. In [stream_far] the ASCII tag of the directory at
    26 stores its value at offset 8, before the first directory at 14.
    [Decode] succeeds, and so does [DecodeFile]: it never looks at offset 26,
    reads the six zero bytes that follow the first directory as a second,
    empty one, and returns a result without any error. And in
    [stream_before_cut] the first directory has such a tag, while the stream
    ends before the next-directory offset: [Decode] does not succeed. *)
Lemma far_directory_not_rejected :
  tiff_header stream_far = Some (LittleEndian, 14)
  /\ (exists e,
        In e (dir_entries LittleEndian stream_far 26)
        /\ 4 < valLen e /\ ValOffset LittleEndian e = 8)
  /\ Decode DecodeTag 2 (stream stream_far)
     = Some (Some (mkTiff
                     [Some (mkDir []);
                      Some (mkDir
                              [Some (mkTag 270 2 6
                                       [IntVal 104; IntVal 101; IntVal 108;
                                        IntVal 108; IntVal 111; IntVal 0])])]
                     LittleEndian), None)
  /\ DecodeFile DecodeTag 2 (os_Open stream_far)
     = Some (Some (mkTiff [Some (mkDir []); Some (mkDir [])] LittleEndian), None)
  /\ ~ (exists e, DecodeFile DecodeTag 2 (os_Open stream_far) = Some (None, Some e))
  /\ (exists e,
        In e (dir_entries LittleEndian stream_before_cut 14)
        /\ 4 < valLen e /\ ValOffset LittleEndian e = 8)
  /\ Decode DecodeTag 1 (stream stream_before_cut)
     = Some (None, Some (errors_New "tiff: falied to read offset to next IFD: EOF")).
Proof.
  split; [reflexivity|]. split.
  { eexists. split; [left; reflexivity|]. split; vm_compute; reflexivity. }
  split; [reflexivity|]. split; [reflexivity|]. split.
  { intros [e H]. vm_compute in H. discriminate. }
  split; [|reflexivity].
  eexists. split; [left; reflexivity|]. split; vm_compute; reflexivity.
Qed.

Lemma byte_order_and_magic_witness :
  (Order (mkTiff [] BigEndian) = BigEndian
   <-> firstn 2 stream_no_dir = list_byte_of_string "MM")
  /\ Decode DecodeTag 0 (stream stream_bad_marker) = Some (None, Some ErrByteOrder)
  /\ DecodeFile DecodeTag 0 (os_Open stream_one_byte) = Some (None, Some ErrByteOrder)
  /\ Decode DecodeTag 0 (stream stream_bad_magic) = Some (None, Some ErrMagic)
  /\ DecodeFile DecodeTag 0 (os_Open stream_bad_magic) = Some (None, Some ErrMagic).
Proof.
  split; [|split; [|split; [|split]]].
  - apply (proj1 (byte_order_and_magic DecodeTag stream_no_dir) 0%nat).
    left. reflexivity.
  - apply (proj1 (proj2 (byte_order_and_magic DecodeTag stream_bad_marker)));
      vm_compute; discriminate.
  - apply (proj1 (proj2 (byte_order_and_magic DecodeTag stream_one_byte)));
      vm_compute; discriminate.
  - apply (proj1 (proj2 (proj2 (byte_order_and_magic DecodeTag stream_bad_magic)))
             LittleEndian).
    + left. split; reflexivity.
    + reflexivity.
    + vm_compute. discriminate.
  - apply (proj1 (proj2 (proj2 (byte_order_and_magic DecodeTag stream_bad_magic)))
             LittleEndian).
    + left. split; reflexivity.
    + reflexivity.
    + vm_compute. discriminate.
Defined.

Lemma self_cycle_rejected_witness :
  Decode DecodeTag 0 (stream stream_self) = Some (None, Some ErrRecursive)
  /\ DecodeFile DecodeTag 0 (os_Open stream_self) = Some (None, Some ErrRecursive).
Proof.
  destruct (self_cycle_rejected DecodeTag stream_self LittleEndian 10 eq_refl)
    as (H1 & H2 & H3).
  split.
  - eapply (H1 0%nat); [reflexivity | cbn; lia | reflexivity | lia].
  - eapply (H3 0%nat); [reflexivity | cbn; lia | reflexivity | reflexivity | lia].
Defined.

(** C4, the counterexample. In [stream_self_far] the directory at 20 names
    20, its own offset. [Decode] follows the chain from 8 to 20 and fails with
    the recursive-IFD error. [DecodeFile] never looks at offset 20: after the
    directory at 8 it reads the six zero bytes at 14 as an empty directory
    with next offset 0, and returns two directories and no error. *)
Lemma far_self_cycle_not_rejected :
  tiff_header stream_self_far = Some (LittleEndian, 8)
  /\ DecodeDir DecodeTag (mkReader stream_self_far 20) LittleEndian 0
     = (mkReader stream_self_far 26, (Some (mkDir []), 20, None))
  /\ Decode DecodeTag 1 (stream stream_self_far) = Some (None, Some ErrRecursive)
  /\ DecodeFile DecodeTag 2 (os_Open stream_self_far)
     = Some (Some (mkTiff [Some (mkDir []); Some (mkDir [])] LittleEndian), None)
  /\ ~ (exists e, DecodeFile DecodeTag 2 (os_Open stream_self_far) = Some (None, Some e)).
Proof.
  split; [reflexivity|]. split; [reflexivity|]. split; [reflexivity|].
  split; [reflexivity|]. intros [e H]. vm_compute in H. discriminate.
Qed.

Lemma offset_past_end_rejected_witness :
  Decode DecodeTag 0 (stream stream_past_end) = Some (None, Some ErrSeekAfterEOF).
Proof.
  eapply (offset_past_end_rejected DecodeTag stream_past_end LittleEndian 64 0).
  - reflexivity.
  - reflexivity.
  - cbn. lia.
  - vm_compute. discriminate.
  - lia.
Defined.

Lemma error_aborts_without_result_witness :
  Decode DecodeTag 0 (stream stream_short_tag)
  = Some (None, Some ErrTruncatedStructure)
  /\ DecodeFile DecodeTag 0 (os_Open stream_short_tag)
     = Some (None, Some ErrTruncatedStructure)
  /\ (None : ptr Tiff) = None.
Proof.
  destruct (error_aborts_without_result DecodeTag) as (H1 & H2 & H3 & H4 & H5).
  split; [|split].
  - eapply (H3 stream_short_tag LittleEndian 8 0%nat);
      [reflexivity | reflexivity | cbn; lia | vm_compute; reflexivity
      | reflexivity | lia].
  - eapply (H4 stream_short_tag LittleEndian 8 0%nat);
      [reflexivity | reflexivity | cbn; lia | reflexivity | lia].
  - apply (H1 0%nat (stream stream_short_tag) None ErrTruncatedStructure).
    reflexivity.
Defined.

Lemma zero_first_offset_witness :
  Decode DecodeTag 0 (stream stream_no_dir) = Some (Some (mkTiff [] BigEndian), None)
  /\ DecodeFile DecodeTag 0 (os_Open stream_no_dir)
     = Some (Some (mkTiff [] BigEndian), None).
Proof.
  apply (zero_first_offset_decodes_empty DecodeTag stream_no_dir BigEndian).
  reflexivity.
Defined.

Lemma DecodeDir_tags_then_next_offset_witness :
  (exists bs r2 tags,
      io_ReadFull (mkReader stream_inline 8) 2
      = (Reader_advance (mkReader stream_inline 8) 2, bs, None)
      /\ Some (mkDir [Some (mkTag 256 3 1 [IntVal 100])]) = Some (mkDir tags)
      /\ len tags = Z.max 0 (int16 (Uint16 LittleEndian bs))
      /\ tags_decoded DecodeTag LittleEndian 0
           (Reader_advance (mkReader stream_inline 8) 2) tags r2
      /\ binary_Read_uint32 r2 LittleEndian = (mkReader stream_inline 26, 0, None))
  /\ DecodeDir DecodeTag (mkReader stream_short_tag 8) LittleEndian 0
     = (Reader_advance (Reader_advance (mkReader stream_short_tag 8) 2) 4,
        (None, 0, Some ErrTruncatedStructure)).
Proof.
  split.
  - apply (proj1 (DecodeDir_tags_then_next_offset DecodeTag
                    (mkReader stream_inline 8) LittleEndian 0)).
    reflexivity.
  - apply (proj1 (proj2 (DecodeDir_tags_then_next_offset DecodeTag
                           (mkReader stream_short_tag 8) LittleEndian 0))
             (firstn 2 (from 8 stream_short_tag)) [] _ 4%nat None).
    + reflexivity.
    + constructor.
    + vm_compute. reflexivity.
    + reflexivity.
Defined.

(** C6, the counterexample. The directory [dir_high_count] carries the count
    0xFFFF: [DecodeDir] succeeds and returns no tag at all, which is neither
    the count read as a signed integer, -1, nor the count read as an unsigned
    one, 65535. *)
Lemma high_tag_count_returns_no_tag :
  DecodeDir DecodeTag (bytes_NewReader dir_high_count) LittleEndian 0
  = (mkReader dir_high_count 6, (Some (mkDir []), 0, None))
  /\ int16 (Uint16 LittleEndian (firstn 2 dir_high_count)) = -1
  /\ Uint16 LittleEndian (firstn 2 dir_high_count) = 65535
  /\ ~ (forall r order base r' d off r1 bs,
           DecodeDir DecodeTag r order base = (r', (Some d, off, None)) ->
           io_ReadFull r 2 = (r1, bs, None) ->
           len (Tags d) = int16 (Uint16 order bs)).
Proof.
  split; [reflexivity|]. split; [reflexivity|]. split; [reflexivity|].
  intros H.
  specialize (H (bytes_NewReader dir_high_count) LittleEndian 0 _ _ _ _ _
                eq_refl eq_refl).
  vm_compute in H. discriminate.
Qed.

Lemma negative_tag_count_witness :
  binary_Read_int16 (bytes_NewReader dir_high_count) LittleEndian
  = (mkReader dir_high_count 2, 65535 - 65536, None)
  /\ DecodeDir DecodeTag (bytes_NewReader dir_high_count) LittleEndian 0
     = (mkReader dir_high_count 6, (Some (mkDir []), 0, None)).
Proof.
  destruct (negative_tag_count_decodes_no_tag DecodeTag
              (bytes_NewReader dir_high_count) (mkReader dir_high_count 2)
              LittleEndian 0 (firstn 2 dir_high_count))
    as (H1 & _ & _ & H2).
  - reflexivity.
  - vm_compute. discriminate.
  - split; [exact H1 | exact H2].
Defined.

(** * Further properties of the decoder *)

(** ** More on loops *)

Section WalkReturns.
Variable State : Type.
Variable iter : State -> Outcome State.

Lemma head_prefix (m : nat) :
  forall k st st',
    head_of_iteration State iter m st = Some st' -> (k <= m)%nat ->
    exists st'', head_of_iteration State iter k st = Some st''.
Proof.
  induction m as [|m IH]; intros k st st' H Hk.
  - replace k with 0%nat by lia. eauto.
  - destruct k as [|k]; [simpl; eauto|]. simpl in H |- *.
    destruct (iter st) as [st1|res]; [|discriminate].
    apply (IH k st1 st'); [assumption|lia].
Qed.

Lemma head_add (a b : nat) :
  forall st,
    head_of_iteration State iter (a + b) st
    = match head_of_iteration State iter a st with
      | Some st' => head_of_iteration State iter b st'
      | None => None
      end.
Proof.
  induction a as [|a IH]; intros st; simpl; [reflexivity|].
  destruct (iter st) as [st1|res]; [apply IH|reflexivity].
Qed.

(** A loop that has a head for every iteration never returns. *)
Lemma walk_all_heads (fuel : nat) :
  forall st,
    (forall n, exists st', head_of_iteration State iter n st = Some st') ->
    walk State iter fuel st = None.
Proof.
  induction fuel as [|fuel IH]; intros st H; simpl;
    destruct (H 1%nat) as [st1 H1]; simpl in H1;
    destruct (iter st) as [st'|res] eqn:E; try discriminate; try reflexivity.
  apply IH. intros n. destruct (H (S n)) as [st2 H2]. simpl in H2.
  rewrite E in H2. eauto.
Qed.

(** What a loop returns was returned by one of its turns. *)
Lemma walk_returned_at (fuel : nat) :
  forall st res,
    walk State iter fuel st = Some res ->
    exists n st',
      (n <= fuel)%nat /\ head_of_iteration State iter n st = Some st'
      /\ iter st' = Returned res.
Proof.
  induction fuel as [|fuel IH]; intros st res H; simpl in H;
    destruct (iter st) as [st1|res1] eqn:E; try discriminate;
    try (injection H as <-; exists 0%nat, st; repeat split; auto; lia).
  apply IH in H as (n & st' & Hn & Hh & Hr).
  exists (S n), st'. simpl. rewrite E. repeat split; auto. lia.
Qed.

(** An invariant of the loop states holds where the loop returns. *)
Lemma walk_invariant (Inv : State -> Prop) (P : TiffResult -> Prop) :
  (forall st st', Inv st -> iter st = Running st' -> Inv st') ->
  (forall st res, Inv st -> iter st = Returned res -> P res) ->
  forall fuel st res, Inv st -> walk State iter fuel st = Some res -> P res.
Proof.
  intros Hstep Hret. induction fuel as [|fuel IH]; intros st res HI H; simpl in H;
    destruct (iter st) as [st1|res1] eqn:E; try discriminate.
  - injection H as <-. eauto.
  - eauto.
  - injection H as <-. eauto.
Qed.
End WalkReturns.

(** ** Bytes and integers, continued *)

Lemma lor_shiftl_add (a b n : Z) :
  0 <= n -> 0 <= a < 2 ^ n -> Z.lor a (Z.shiftl b n) = a + b * 2 ^ n.
Proof.
  intros Hn Ha.
  assert (Z.land a (Z.shiftl b n) = 0) as E.
  { apply Z.bits_inj'. intros k Hk. rewrite Z.land_spec, Z.bits_0.
    destruct (Z.lt_ge_cases k n) as [Hlt|Hge].
    - rewrite Z.shiftl_spec_low by assumption. apply andb_false_r.
    - destruct (Z.eq_dec a 0) as [->|Hz]; [now rewrite Z.bits_0|].
      rewrite (Z.bits_above_log2 a k); [reflexivity|lia|].
      apply Z.log2_lt_pow2; [lia|].
      apply Z.lt_le_trans with (2 ^ n); [lia|].
      apply Z.pow_le_mono_r; lia. }
  pose proof (Z.add_lor_land a (Z.shiftl b n)) as H.
  rewrite E, Z.shiftl_mul_pow2 in H by lia. rewrite Z.shiftl_mul_pow2 by lia. lia.
Qed.

Lemma Uint16_arith (order : ByteOrder) (b : list byte) :
  Uint16 order b
  = match order with
    | LittleEndian => u8 b 0 + 256 * u8 b 1
    | BigEndian => u8 b 1 + 256 * u8 b 0
    end.
Proof.
  destruct order; unfold Uint16;
    rewrite (lor_shiftl_add _ _ 8) by (try lia; apply u8_range); lia.
Qed.

Lemma byte_of_u8 (x : byte) (n : N) (y : byte) :
  Z.of_N (Byte.to_N x) = Z.of_N n -> Byte.of_N n = Some y -> x = y.
Proof.
  intros H Hy. apply N2Z.inj in H. pose proof (Byte.of_to_N x) as E.
  rewrite H in E. congruence.
Qed.

(** The two bytes that read as 42 under each order. *)
Lemma magic_bytes (order : ByteOrder) (b : list byte) :
  List.length b = 2%nat ->
  (int16 (Uint16 order b) = 42
   <-> b = match order with
          | LittleEndian => B [42; 0]%N
          | BigEndian => B [0; 42]%N
          end).
Proof.
  intros L. split.
  - intros H. pose proof (Uint16_range order b) as R.
    assert (Uint16 order b = 42) as E.
    { unfold int16 in H. rewrite Z.mod_small in H by lia.
      destruct (Uint16 order b <? 32768) eqn:C; [assumption|].
      apply Z.ltb_ge in C. lia. }
    rewrite Uint16_arith in E.
    pose proof (u8_range b 0) as R0. pose proof (u8_range b 1) as R1.
    destruct b as [|x [|y [|z b]]]; try discriminate.
    unfold u8 in *. cbn [nth] in *.
    destruct order.
    + assert (Z.of_N (Byte.to_N x) = Z.of_N 42 /\ Z.of_N (Byte.to_N y) = Z.of_N 0)
        as [Ex Ey] by (cbn; lia).
      rewrite (byte_of_u8 x 42 _ Ex eq_refl), (byte_of_u8 y 0 _ Ey eq_refl).
      reflexivity.
    + assert (Z.of_N (Byte.to_N y) = Z.of_N 42 /\ Z.of_N (Byte.to_N x) = Z.of_N 0)
        as [Ey Ex] by (cbn; lia).
      rewrite (byte_of_u8 x 0 _ Ex eq_refl), (byte_of_u8 y 42 _ Ey eq_refl).
      reflexivity.
  - intros ->. destruct order; reflexivity.
Qed.

Lemma firstn_4_split (l : list byte) :
  firstn 4 l = firstn 2 l ++ firstn 2 (from 2 l).
Proof. destruct l as [|a [|b [|c [|d l]]]]; reflexivity. Qed.

Lemma app_2_inj (a b c d : list byte) :
  List.length a = 2%nat -> List.length c = 2%nat ->
  a ++ b = c ++ d -> a = c /\ b = d.
Proof.
  intros La Lc H.
  destruct a as [|a0 [|a1 [|a2 a]]]; try discriminate.
  destruct c as [|c0 [|c1 [|c2 c]]]; try discriminate.
  simpl in H. injection H as -> -> ->. auto.
Qed.

Lemma string_append_assoc (a b c : string) :
  String.append (String.append a b) c = String.append a (String.append b c).
Proof. induction a as [|x a IH]; simpl; [reflexivity|now rewrite IH]. Qed.

(** ** What the two entry points return *)

Section MoreDecoderFacts.
Variable DecodeTag : TagDecoder.

Lemma DecodeDir_ok_dir (r r' : Reader) (order : ByteOrder) (base : Z)
  (d : ptr Dir) (off : Z) :
  DecodeDir DecodeTag r order base = (r', (d, off, None)) -> d <> None.
Proof.
  intros H. apply DecodeDir_ok_inv in H as (bs & r2 & tags & _ & _ & _ & ->).
  discriminate.
Qed.

(** The directories that a walk has collected are the first ones of the
    [Tiff] it returns, be it [Decode]'s walk or [DecodeFile]'s. *)
Lemma Decode_walk_keeps_dirs (order : ByteOrder) (fuel : nat) :
  forall st t e,
    walk WalkState (Decode_iter DecodeTag order) fuel st = Some (Some t, e) ->
    exists more, Dirs t = w_Dirs st ++ more.
Proof.
  induction fuel as [|fuel IH]; intros st t e H; simpl in H;
    destruct (Decode_iter DecodeTag order st) as [st'|res] eqn:E; try discriminate;
    try (injection H as ->;
         apply Decode_iter_returned in E as [[_ E]|[_ [e1 E]]]; [|discriminate];
         injection E as -> _; exists []; cbn; now rewrite app_nil_r).
  apply Decode_iter_running in E as (buf' & d & off & _ & -> & _ & _).
  apply IH in H as [more H]. cbn [w_Dirs] in H. rewrite <- app_assoc in H. eauto.
Qed.

Lemma DecodeFile_walk_keeps_dirs (order : ByteOrder) (offset0 : Z) (fuel : nat) :
  forall st t e,
    walk WalkState (DecodeFile_iter DecodeTag order offset0) fuel st = Some (Some t, e) ->
    exists more, Dirs t = w_Dirs st ++ more.
Proof.
  induction fuel as [|fuel IH]; intros st t e H; simpl in H;
    destruct (DecodeFile_iter DecodeTag order offset0 st) as [st'|res] eqn:E;
    try discriminate;
    try (injection H as ->;
         apply DecodeFile_iter_returned in E as [[_ E]|[_ [e1 E]]]; [|discriminate];
         injection E as -> _; exists []; cbn; now rewrite app_nil_r).
  apply DecodeFile_iter_running in E as (buf' & d & off & _ & -> & _ & _).
  apply IH in H as [more H]. cbn [w_Dirs] in H. rewrite <- app_assoc in H. eauto.
Qed.

Lemma Decode_walk_shape (order : ByteOrder) (fuel : nat) (st : WalkState)
  (res : TiffResult) :
  Forall (fun d => d <> None) (w_Dirs st) ->
  walk WalkState (Decode_iter DecodeTag order) fuel st = Some res ->
  (exists e, res = (None, Some e))
  \/ (exists t, res = (Some t, None) /\ Forall (fun d => d <> None) (Dirs t)).
Proof.
  intros HF H.
  refine (walk_invariant _ (Decode_iter DecodeTag order)
            (fun st => Forall (fun d : ptr Dir => d <> None) (w_Dirs st))
            (fun res => (exists e, res = (None, Some e))
                        \/ (exists t, res = (Some t, None)
                                       /\ Forall (fun d => d <> None) (Dirs t)))
            _ _ fuel st res HF H).
  - intros st0 st' HI E.
    apply Decode_iter_running in E as (buf' & d & off & ED & -> & _ & _).
    cbn [w_Dirs]. apply Forall_app. split; [assumption|].
    constructor; [|constructor]. eapply DecodeDir_ok_dir; eassumption.
  - intros st0 res0 HI E.
    apply Decode_iter_returned in E as [[_ ->]|[_ [e ->]]]; [right|left]; eauto.
Qed.

Lemma DecodeFile_walk_shape (order : ByteOrder) (offset0 : Z) (fuel : nat)
  (st : WalkState) (res : TiffResult) :
  Forall (fun d => d <> None) (w_Dirs st) ->
  walk WalkState (DecodeFile_iter DecodeTag order offset0) fuel st = Some res ->
  (exists e, res = (None, Some e))
  \/ (exists t, res = (Some t, None) /\ Forall (fun d => d <> None) (Dirs t)).
Proof.
  intros HF H.
  refine (walk_invariant _ (DecodeFile_iter DecodeTag order offset0)
            (fun st => Forall (fun d : ptr Dir => d <> None) (w_Dirs st))
            (fun res => (exists e, res = (None, Some e))
                        \/ (exists t, res = (Some t, None)
                                       /\ Forall (fun d => d <> None) (Dirs t)))
            _ _ fuel st res HF H).
  - intros st0 st' HI E.
    apply DecodeFile_iter_running in E as (buf' & d & off & ED & -> & _ & _).
    cbn [w_Dirs]. apply Forall_app. split; [assumption|].
    constructor; [|constructor]. eapply DecodeDir_ok_dir; eassumption.
  - intros st0 res0 HI E.
    apply DecodeFile_iter_returned in E as [[_ ->]|[_ [e ->]]]; [right|left]; eauto.
Qed.

Lemma Decode_result_shape (fuel : nat) (r : io_Reader) (res : TiffResult) :
  Decode DecodeTag fuel r = Some res ->
  (exists e, res = (None, Some e))
  \/ (exists t, res = (Some t, None) /\ Forall (fun d => d <> None) (Dirs t)).
Proof.
  unfold Decode.
  destruct (ioutil_ReadAll r) as [data [e0|]].
  { intros H. injection H as <-. eauto. }
  destruct (io_ReadFull _ 2) as [[buf bo] [e0|]].
  { intros H. injection H as <-. eauto. }
  destruct (if string_eq bo "II" then Some LittleEndian
            else if string_eq bo "MM" then Some BigEndian else None) as [order|].
  2:{ intros H. injection H as <-. eauto. }
  destruct (binary_Read_int16 buf order) as [[buf1 sp] err].
  destruct (_ || _).
  { intros H. injection H as <-. eauto. }
  destruct (binary_Read_uint32 buf1 order) as [[buf2 off] [e0|]].
  { intros H. injection H as <-. eauto. }
  apply Decode_walk_shape. constructor.
Qed.

Lemma DecodeFile_result_shape (fuel : nat) (f : File) (res : TiffResult) :
  DecodeFile DecodeTag fuel f = Some res ->
  (exists e, res = (None, Some e))
  \/ (exists t, res = (Some t, None) /\ Forall (fun d => d <> None) (Dirs t)).
Proof.
  unfold DecodeFile.
  destruct (File_ReadFull f 2) as [[f1 bo] [e0|]].
  { intros H. injection H as <-. eauto. }
  destruct (if string_eq bo "II" then Some LittleEndian
            else if string_eq bo "MM" then Some BigEndian else None) as [order|].
  2:{ intros H. injection H as <-. eauto. }
  destruct (File_ReadFull f1 2) as [[f2 spbuf] [e0|]].
  { intros H. injection H as <-. eauto. }
  destruct (binary_Read_int16 _ order) as [[buf1 sp] err].
  destruct (_ || _).
  { intros H. injection H as <-. eauto. }
  destruct (File_ReadFull f2 4) as [[f3 offsetbuf] [e0|]].
  { intros H. injection H as <-. eauto. }
  destruct (binary_Read_uint32 _ order) as [[buf2 off] [e0|]].
  { intros H. injection H as <-. eauto. }
  destruct (File_Seek f3 off) as [[f4 a] [e0|]].
  { intros H. injection H as <-. eauto. }
  destruct (File_ReadAll f4) as [[f5 rest] err5].
  apply DecodeFile_walk_shape. constructor.
Qed.

(** X2. Whatever [Decode] and [DecodeFile] return, on any reader and any
    file, is either an error without a [Tiff], or a [Tiff] without an error
    all of whose directories are non-nil: never both nil, never both set, and
    never a nil entry in [Dirs]. *)
Theorem result_is_error_or_tiff :
  (forall fuel r res,
      Decode DecodeTag fuel r = Some res ->
      (exists e, res = (None, Some e))
      \/ (exists t, res = (Some t, None) /\ Forall (fun d => d <> None) (Dirs t)))
  /\ (forall fuel f res,
        DecodeFile DecodeTag fuel f = Some res ->
        (exists e, res = (None, Some e))
        \/ (exists t, res = (Some t, None) /\ Forall (fun d => d <> None) (Dirs t))).
Proof.
  split.
  - intros fuel r res H. now apply Decode_result_shape in H.
  - intros fuel f res H. now apply DecodeFile_result_shape in H.
Qed.

(** X3. [DecodeFile] reads its window from front to back and every
    directory takes at least 6 bytes of it: the [Tiff] it returns has at most
    a sixth as many directories as the file has bytes. *)
Theorem DecodeFile_directories_bounded (fuel : nat) (f : File) (t : Tiff)
  (e : option error) :
  DecodeFile DecodeTag fuel f = Some (Some t, e) ->
  6 * len (Dirs t) <= len (content f).
Proof.
  unfold DecodeFile.
  destruct (File_ReadFull f 2) as [[f1 bo] [e0|]] eqn:E1; [discriminate|].
  destruct (if string_eq bo "II" then Some LittleEndian
            else if string_eq bo "MM" then Some BigEndian else None) as [order|];
    [|discriminate].
  destruct (File_ReadFull f1 2) as [[f2 spbuf] [e0|]] eqn:E2; [discriminate|].
  destruct (binary_Read_int16 _ order) as [[buf1 sp] err].
  destruct (_ || _); [discriminate|].
  destruct (File_ReadFull f2 4) as [[f3 offsetbuf] [e0|]] eqn:E3; [discriminate|].
  destruct (binary_Read_uint32 _ order) as [[buf2 off] [e0|]]; [discriminate|].
  unfold File_Seek, File_ReadAll.
  destruct (off <? 0); [discriminate|]. cbn [content pos read_err].
  assert (content f3 = content f) as Hc.
  { unfold File_ReadFull in E1, E2, E3.
    injection E1 as <- _ _. injection E2 as <- _ _. injection E3 as <- _ _.
    reflexivity. }
  rewrite Hc. intros H.
  apply (walk_invariant _ _
           (fun st => s (w_buf st) = from off (content f) /\ 0 <= i (w_buf st)
                      /\ 6 * len (w_Dirs st) <= i (w_buf st)
                      /\ 6 * len (w_Dirs st) <= len (from off (content f)))
           (fun res => forall t e, res = (Some t, e) ->
                                   6 * len (Dirs t) <= len (from off (content f))))
    with (t := t) (e := e) in H.
  - unfold len, from in *. rewrite length_skipn in H. lia.
  - intros st st' (Hs & H0 & H6 & Hl) E.
    apply DecodeFile_iter_running in E as (buf' & d & o & ED & -> & _ & _).
    apply DecodeDir_ok_room in ED as (Hs' & Hi); [|assumption].
    cbn [w_buf w_Dirs]. unfold len in *. rewrite length_app. cbn [List.length].
    rewrite Hs' in *. rewrite Hs in *. repeat split; lia.
  - intros st res (Hs & H0 & H6 & Hl) E t0 e0 ->.
    apply DecodeFile_iter_returned in E as [[_ E]|[_ [e1 E]]]; [|discriminate].
    injection E as -> _. exact Hl.
  - cbn. unfold len. cbn. repeat split; lia.
  - reflexivity.
Qed.

(** X4. After a valid header, the [Tiff] that [Decode] or [DecodeFile]
    returns has no directory exactly when the first-directory offset is 0. *)
Theorem no_directory_iff_zero_offset (data : list byte) (order : ByteOrder)
  (offset0 : Z) (fuel : nat) (t : Tiff) (e : option error) :
  tiff_header data = Some (order, offset0) ->
  Decode DecodeTag fuel (stream data) = Some (Some t, e)
  \/ DecodeFile DecodeTag fuel (os_Open data) = Some (Some t, e) ->
  (Dirs t = [] <-> offset0 = 0).
Proof.
  intros Hh [H|H].
  - rewrite (Decode_after_header _ _ _ _ _ Hh) in H.
    destruct fuel as [|fuel]; simpl in H;
      destruct (Decode_iter DecodeTag order (Decode_start data offset0))
        as [st'|res] eqn:E; try discriminate;
      try (injection H as ->;
           apply Decode_iter_returned in E as [[E0 E]|[_ [e1 E]]]; [|discriminate];
           injection E as -> _; cbn in *; tauto).
    apply Decode_iter_running in E as (buf' & d & off & _ & -> & Hn & _).
    apply Decode_walk_keeps_dirs in H as [more H]. cbn in Hn, H. rewrite H.
    split; [discriminate|contradiction].
  - rewrite (DecodeFile_after_header _ _ _ _ _ Hh) in H.
    destruct fuel as [|fuel]; simpl in H;
      destruct (DecodeFile_iter DecodeTag order offset0 (DecodeFile_start data offset0))
        as [st'|res] eqn:E; try discriminate;
      try (injection H as ->;
           apply DecodeFile_iter_returned in E as [[E0 E]|[_ [e1 E]]]; [|discriminate];
           injection E as -> _; cbn in *; tauto).
    apply DecodeFile_iter_running in E as (buf' & d & off & _ & -> & Hn & _).
    apply DecodeFile_walk_keeps_dirs in H as [more H]. cbn in Hn, H. rewrite H.
    split; [discriminate|contradiction].
Qed.
End MoreDecoderFacts.

(** ** The header, byte by byte *)

Lemma tiff_header_signature (data : list byte) (order : ByteOrder) (offset0 : Z) :
  tiff_header data = Some (order, offset0)
  <-> 8 <= len data
      /\ firstn 4 data = match order with
                         | LittleEndian => B [73; 73; 42; 0]%N
                         | BigEndian => B [77; 77; 0; 42]%N
                         end
      /\ offset0 = Uint32 order (firstn 4 (from 4 data)).
Proof.
  split.
  - intros H. apply tiff_header_inv in H as (Hm & Hg & Ho).
    unfold magic in Hg. unfold first_offset in Ho.
    destruct (List.length (firstn 2 (from 2 data)) =? 2)%nat eqn:L2; [|discriminate].
    destruct (List.length (firstn 4 (from 4 data)) =? 4)%nat eqn:L4; [|discriminate].
    apply Nat.eqb_eq in L2, L4. injection Hg as Hg. injection Ho as Ho.
    apply (magic_bytes order _ L2) in Hg.
    split; [|split; [|now symmetry]].
    + revert L4. unfold len, from. rewrite length_firstn, length_skipn. lia.
    + rewrite firstn_4_split, Hg.
      destruct order; [apply marker_order_II in Hm | apply marker_order_MM in Hm];
        rewrite Hm; reflexivity.
  - intros (L & Hs & ->).
    assert (List.length (firstn 2 data) = 2%nat) as La.
    { revert L. unfold len. rewrite length_firstn. lia. }
    assert (List.length (firstn 2 (from 2 data)) = 2%nat) as Lb.
    { revert L. unfold len, from. rewrite length_firstn, length_skipn. lia. }
    assert (List.length (firstn 4 (from 4 data)) = 4%nat) as Lc.
    { revert L. unfold len, from. rewrite length_firstn, length_skipn. lia. }
    rewrite firstn_4_split in Hs.
    assert (marker_order data = Some order
            /\ int16 (Uint16 order (firstn 2 (from 2 data))) = 42) as [Hm Hg].
    { destruct order.
      - apply (app_2_inj _ _ (B [73; 73]%N) (B [42; 0]%N)) in Hs as [Ha Hb];
          [|assumption|reflexivity].
        split; [now apply marker_order_II | now apply (magic_bytes LittleEndian)].
      - apply (app_2_inj _ _ (B [77; 77]%N) (B [0; 42]%N)) in Hs as [Ha Hb];
          [|assumption|reflexivity].
        split; [now apply marker_order_MM | now apply (magic_bytes BigEndian)]. }
    unfold tiff_header, magic, first_offset.
    rewrite Hm, Lb, Lc, Hg. reflexivity.
Qed.

Section HeaderAndChainFacts.
Variable DecodeTag : TagDecoder.

Lemma success_has_header (data : list byte) (fuel : nat) (t : Tiff) (e : option error) :
  Decode DecodeTag fuel (stream data) = Some (Some t, e)
  \/ DecodeFile DecodeTag fuel (os_Open data) = Some (Some t, e) ->
  exists offset0, tiff_header data = Some (Order t, offset0).
Proof.
  unfold tiff_header. intros [H|H].
  - rewrite Decode_header in H.
    destruct (marker_order data) as [order|]; [|discriminate].
    destruct (magic order data) as [sp|]; [|discriminate].
    destruct (42 =? sp); [|discriminate].
    destruct (first_offset order data) as [off|]; [|discriminate].
    apply Decode_walk_order in H. subst order. eauto.
  - rewrite DecodeFile_header in H.
    destruct (marker_order data) as [order|]; [|discriminate].
    destruct (magic order data) as [sp|]; [|discriminate].
    destruct (42 =? sp); [|discriminate].
    destruct (first_offset order data) as [off|]; [|discriminate].
    apply DecodeFile_walk_order in H. subst order. eauto.
Qed.

Lemma no_header_fails (data : list byte) (fuel : nat) :
  tiff_header data = None ->
  exists e1 e2,
    Decode DecodeTag fuel (stream data) = Some (None, Some e1)
    /\ DecodeFile DecodeTag fuel (os_Open data) = Some (None, Some e2).
Proof.
  intros H. rewrite Decode_header, DecodeFile_header. unfold tiff_header in H.
  destruct (marker_order data) as [order|]; [|eauto].
  destruct (magic order data) as [sp|]; [|eauto].
  destruct (42 =? sp); [|eauto].
  destruct (first_offset order data); [discriminate|eauto].
Qed.

(** X5. The signatures that the two entry points accept. A stream that
    [Decode] or [DecodeFile] decodes has at least 8 bytes and begins with the
    four bytes 49 49 2A 00, and then the order is little-endian, or with
    4D 4D 00 2A, and then it is big-endian. A stream of fewer than 8 bytes, or
    one that begins with neither, makes both fail whatever follows. *)
Theorem decoded_stream_signature (data : list byte) :
  (forall fuel t e,
      Decode DecodeTag fuel (stream data) = Some (Some t, e)
      \/ DecodeFile DecodeTag fuel (os_Open data) = Some (Some t, e) ->
      8 <= len data
      /\ firstn 4 data = match Order t with
                         | LittleEndian => B [73; 73; 42; 0]%N
                         | BigEndian => B [77; 77; 0; 42]%N
                         end)
  /\ (len data < 8
      \/ (firstn 4 data <> B [73; 73; 42; 0]%N /\ firstn 4 data <> B [77; 77; 0; 42]%N) ->
      forall fuel, exists e1 e2,
        Decode DecodeTag fuel (stream data) = Some (None, Some e1)
        /\ DecodeFile DecodeTag fuel (os_Open data) = Some (None, Some e2)).
Proof.
  split.
  - intros fuel t e H. apply success_has_header in H as [off H].
    apply tiff_header_signature in H. tauto.
  - intros H fuel. apply no_header_fails.
    destruct (tiff_header data) as [[order off]|] eqn:E; [|reflexivity].
    apply tiff_header_signature in E as (L & Hs & _).
    destruct H as [H|[H1 H2]]; [lia|]. destruct order; contradiction.
Qed.

(** X6. A header that is cut short. After a valid marker, a stream of fewer
    than 4 bytes has no complete magic value: [Decode] reports that it could
    not find the marker, [DecodeFile] that it could not read it. After a
    valid marker and magic value, a stream of fewer than 8 bytes has no
    complete first-directory offset, which each entry point reports in its
    own words. *)
Theorem truncated_header_errors (data : list byte) :
  (firstn 2 data = list_byte_of_string "II" \/ firstn 2 data = list_byte_of_string "MM" ->
   len data < 4 ->
   forall fuel,
     Decode DecodeTag fuel (stream data) = Some (None, Some ErrMagic)
     /\ DecodeFile DecodeTag fuel (os_Open data)
        = Some (None, Some (errors_New "tiff: could not read special tiff marker")))
  /\ (firstn 4 data = B [73; 73; 42; 0]%N \/ firstn 4 data = B [77; 77; 0; 42]%N ->
      len data < 8 ->
      forall fuel,
        Decode DecodeTag fuel (stream data)
        = Some (None, Some (errors_New "tiff: could not read offset to first IFD"))
        /\ DecodeFile DecodeTag fuel (os_Open data)
           = Some (None, Some (errors_New "tiff: could not read offset of 1st IFD"))).
Proof.
  split.
  - intros Hm L fuel.
    assert (exists order, marker_order data = Some order) as [order Ho].
    { destruct Hm as [H|H];
        [exists LittleEndian; now apply marker_order_II
        |exists BigEndian; now apply marker_order_MM]. }
    assert (magic order data = None) as Hg.
    { unfold magic.
      destruct (List.length (firstn 2 (from 2 data)) =? 2)%nat eqn:E; [|reflexivity].
      apply Nat.eqb_eq in E. revert E L. unfold len, from.
      rewrite length_firstn, length_skipn. lia. }
    rewrite Decode_header, DecodeFile_header, Ho, Hg. auto.
  - intros Hs L fuel.
    assert (exists order,
               firstn 4 data = match order with
                               | LittleEndian => B [73; 73; 42; 0]%N
                               | BigEndian => B [77; 77; 0; 42]%N
                               end) as [order Hs'].
    { destruct Hs; [exists LittleEndian | exists BigEndian]; assumption. }
    assert (List.length (firstn 4 data) = 4%nat) as L4.
    { rewrite Hs'. destruct order; reflexivity. }
    assert (List.length (firstn 2 data) = 2%nat) as La.
    { revert L4. rewrite !length_firstn. lia. }
    assert (List.length (firstn 2 (from 2 data)) = 2%nat) as Lb.
    { revert L4. unfold from. rewrite !length_firstn, length_skipn. lia. }
    rewrite firstn_4_split in Hs'.
    assert (marker_order data = Some order
            /\ int16 (Uint16 order (firstn 2 (from 2 data))) = 42) as [Hm Hg].
    { destruct order.
      - apply (app_2_inj _ _ (B [73; 73]%N) (B [42; 0]%N)) in Hs' as [Ha Hb];
          [|assumption|reflexivity].
        split; [now apply marker_order_II | now apply (magic_bytes LittleEndian)].
      - apply (app_2_inj _ _ (B [77; 77]%N) (B [0; 42]%N)) in Hs' as [Ha Hb];
          [|assumption|reflexivity].
        split; [now apply marker_order_MM | now apply (magic_bytes BigEndian)]. }
    assert (first_offset order data = None) as Ho.
    { unfold first_offset.
      destruct (List.length (firstn 4 (from 4 data)) =? 4)%nat eqn:E; [|reflexivity].
      apply Nat.eqb_eq in E. revert E L. unfold len, from.
      rewrite length_firstn, length_skipn. lia. }
    rewrite Decode_header, DecodeFile_header, Hm. unfold magic.
    rewrite Lb, Nat.eqb_refl, Hg, Ho. auto.
Qed.
End HeaderAndChainFacts.

(** ** Truncated directories, cycles and file positions *)

Section ChainFacts.
Variable DecodeTag : TagDecoder.

Lemma io_ReadFull_at_end (r : Reader) (n : nat) :
  0 <= i r -> len (s r) <= i r -> (0 < n)%nat ->
  snd (io_ReadFull r n) = Some io_EOF.
Proof.
  intros H0 H Hn. unfold io_ReadFull. rewrite from_past_end by assumption.
  rewrite firstn_nil. cbn. destruct n; [lia|reflexivity].
Qed.

Lemma io_ReadFull_partial (r : Reader) (n : nat) :
  0 <= i r -> i r < len (s r) < i r + Z.of_nat n ->
  snd (io_ReadFull r n) = Some io_ErrUnexpectedEOF.
Proof.
  intros H0 H. unfold io_ReadFull. cbn [snd].
  assert (List.length (firstn n (from (i r) (s r))) = Z.to_nat (len (s r) - i r)) as L.
  { unfold len, from in *. rewrite length_firstn, length_skipn. lia. }
  rewrite L.
  destruct (Z.to_nat (len (s r) - i r) =? n)%nat eqn:E1; [apply Nat.eqb_eq in E1; lia|].
  destruct (Z.to_nat (len (s r) - i r) =? 0)%nat eqn:E2; [apply Nat.eqb_eq in E2; lia|].
  reflexivity.
Qed.

(** X7. A directory that is cut short. When no byte is left for the tag
    count, [DecodeDir] fails with "tiff: failed to read IFD tag count: EOF",
    and with "... unexpected EOF" when one byte is left. When the count and
    all its tags were decoded and fewer than 4 bytes are left for the
    next-directory offset, it fails with "tiff: falied to read offset to next
    IFD: " followed by "EOF" when nothing is left and by "unexpected EOF"
    otherwise. Each time the directory is nil and the offset 0. *)
Theorem DecodeDir_truncated (r : Reader) (order : ByteOrder) (base : Z) :
  0 <= i r ->
  (len (s r) <= i r ->
   snd (DecodeDir DecodeTag r order base)
   = (None, 0, Some (errors_New "tiff: failed to read IFD tag count: EOF")))
  /\ (i r + 1 = len (s r) ->
      snd (DecodeDir DecodeTag r order base)
      = (None, 0, Some (errors_New "tiff: failed to read IFD tag count: unexpected EOF")))
  /\ (forall bs ts r2,
        io_ReadFull r 2 = (Reader_advance r 2, bs, None) ->
        tags_decoded DecodeTag order base (Reader_advance r 2) ts r2 ->
        len ts = Z.max 0 (int16 (Uint16 order bs)) ->
        (len (s r2) <= i r2 ->
         snd (DecodeDir DecodeTag r order base)
         = (None, 0, Some (errors_New "tiff: falied to read offset to next IFD: EOF")))
        /\ (i r2 < len (s r2) < i r2 + 4 ->
            snd (DecodeDir DecodeTag r order base)
            = (None, 0,
               Some (errors_New
                       "tiff: falied to read offset to next IFD: unexpected EOF")))).
Proof.
  intros H0. split; [|split].
  - intros H. pose proof (io_ReadFull_at_end r 2 H0 H ltac:(lia)) as E.
    unfold DecodeDir, binary_Read_int16.
    destruct (io_ReadFull r 2) as [[r1 bs] err]. cbn [snd] in E. subst err.
    reflexivity.
  - intros H. pose proof (io_ReadFull_partial r 2 H0 ltac:(lia)) as E.
    unfold DecodeDir, binary_Read_int16.
    destruct (io_ReadFull r 2) as [[r1 bs] err]. cbn [snd] in E. subst err.
    reflexivity.
  - intros bs ts r2 E1 T L.
    assert (0 <= i r2) as H2.
    { destruct (tags_decoded_reader DecodeTag _ _ _ _ _ T) as [m ->].
      unfold Reader_advance. cbn [s i]. lia. }
    assert (DecodeDir_tags DecodeTag (Z.to_nat (int16 (Uint16 order bs)))
              (Reader_advance r 2) order base [] = (r2, ts, None)) as ET.
    { replace (Z.to_nat (int16 (Uint16 order bs))) with (List.length ts)
        by (unfold len in L; lia).
      apply (DecodeDir_tags_run DecodeTag order base _ _ _ T []). }
    split; intros H.
    + pose proof (io_ReadFull_at_end r2 4 H2 H ltac:(lia)) as E.
      unfold DecodeDir, binary_Read_int16. rewrite E1, ET. unfold binary_Read_uint32.
      destruct (io_ReadFull r2 4) as [[r3 b4] err]. cbn [snd] in E. subst err.
      reflexivity.
    + pose proof (io_ReadFull_partial r2 4 H2 ltac:(lia)) as E.
      unfold DecodeDir, binary_Read_int16. rewrite E1, ET. unfold binary_Read_uint32.
      destruct (io_ReadFull r2 4) as [[r3 b4] err]. cbn [snd] in E. subst err.
      reflexivity.
Qed.

(** X8. Where [Decode] stops at a first-directory offset at or past the end
    of the data with the seek-after-end error, [DecodeFile] reads an empty
    window there and reports a truncated tag count. *)
Theorem DecodeFile_offset_past_end (data : list byte) (order : ByteOrder)
  (offset0 : Z) :
  tiff_header data = Some (order, offset0) ->
  offset0 <> 0 ->
  len data <= offset0 ->
  forall fuel,
    DecodeFile DecodeTag fuel (os_Open data)
    = Some (None, Some (errors_New "tiff: failed to read IFD tag count: EOF")).
Proof.
  intros Hh Hn L fuel. rewrite (DecodeFile_after_header _ _ _ _ _ Hh).
  assert (DecodeFile_iter DecodeTag order offset0 (DecodeFile_start data offset0)
          = Returned (None, Some (errors_New "tiff: failed to read IFD tag count: EOF")))
    as E.
  { unfold DecodeFile_iter, DecodeFile_start. cbn [w_buf w_offset w_prev w_Dirs].
    destruct (offset0 =? 0) eqn:E0; [apply Z.eqb_eq in E0; contradiction|].
    rewrite from_past_end by assumption. reflexivity. }
  destruct fuel; simpl; rewrite E; reflexivity.
Qed.

(** Two turns of [Decode]'s loop that start at the same offset go the same
    way, and so do the turns that follow them. *)
Lemma Decode_heads_same_offset (data : list byte) (order : ByteOrder) (k : nat) :
  forall st1 st2 a,
    s (w_buf st1) = data -> 0 <= w_offset st1 -> w_prev st1 = w_offset st1 ->
    s (w_buf st2) = data -> w_prev st2 = w_offset st2 ->
    w_offset st2 = w_offset st1 ->
    head_of_iteration WalkState (Decode_iter DecodeTag order) k st1 = Some a ->
    exists b,
      head_of_iteration WalkState (Decode_iter DecodeTag order) k st2 = Some b
      /\ w_offset b = w_offset a.
Proof.
  induction k as [|k IH]; intros st1 st2 a Hs1 H01 Hp1 Hs2 Hp2 Ho H; simpl in H |- *.
  - injection H as <-. eauto.
  - destruct (Decode_iter DecodeTag order st1) as [st1'|res] eqn:E1; [|discriminate].
    pose proof E1 as E1'.
    apply Decode_iter_running in E1' as (buf' & d & off & ED & -> & Hn & Hp).
    rewrite Decode_iter_at in E1 by assumption.
    rewrite Decode_iter_at by (rewrite Ho; assumption).
    rewrite Hs2, Hp2, Ho. rewrite Hs1, Hp1 in E1. rewrite Hs1 in ED.
    destruct (len data <=? w_offset st1); [discriminate|].
    rewrite ED in E1 |- *.
    destruct (off =? w_offset st1); [discriminate|].
    apply DecodeDir_ok_reader in ED as (Es & _ & R & _). cbn [s] in Es.
    eapply IH; [| | | | | |exact H]; cbn; try reflexivity; try lia; assumption.
Qed.

(** X9. Cycles of any length. When the walk of [Decode] comes to an offset
    where it has been before, [Decode] never returns: what it does from an
    offset depends on the offset alone, so it goes round for ever. Only a
    directory that names itself is caught by the recursive-IFD test. *)
Theorem Decode_revisit_never_returns (data : list byte) (order : ByteOrder)
  (offset0 : Z) (n m : nat) (sn sm : WalkState) :
  tiff_header data = Some (order, offset0) ->
  head_of_iteration WalkState (Decode_iter DecodeTag order) n
    (Decode_start data offset0) = Some sn ->
  head_of_iteration WalkState (Decode_iter DecodeTag order) m
    (Decode_start data offset0) = Some sm ->
  (n < m)%nat ->
  w_offset sm = w_offset sn ->
  forall fuel, Decode DecodeTag fuel (stream data) = None.
Proof.
  intros Hh Hn Hm Hlt Ho fuel.
  rewrite (Decode_after_header _ _ _ _ _ Hh). apply walk_all_heads.
  destruct (Decode_reaches_inv _ _ _ _ _ _ Hh Hn) as (Hsn & H0n & Hpn).
  destruct (Decode_reaches_inv _ _ _ _ _ _ Hh Hm) as (Hsm & H0m & Hpm).
  intros N. induction N as [N IH] using (well_founded_induction lt_wf).
  destruct (Nat.le_gt_cases N m) as [Hle|Hgt].
  - eapply head_prefix; eassumption.
  - destruct (IH (N - (m - n))%nat ltac:(lia)) as [a Ha].
    replace (N - (m - n))%nat with (n + (N - m))%nat in Ha by lia.
    rewrite head_add, Hn in Ha.
    destruct (Decode_heads_same_offset data order (N - m) sn sm a) as (b & Hb & _);
      try assumption.
    exists b. replace N with (m + (N - m))%nat by lia.
    rewrite head_add, Hm. exact Hb.
Qed.

(** X10. [DecodeFile] reads the header where the file is positioned and then
    seeks from the start of the file: in a file positioned at [p] whose next
    8 bytes are a valid header naming [offset0], the window of the walk
    begins at byte [offset0] of the file, not at byte [p + offset0], whether
    or not the reads of the file end in a fault. *)
Theorem DecodeFile_offsets_from_file_start (data : list byte) (p : Z)
  (re : option error) (order : ByteOrder) (offset0 : Z) (fuel : nat) :
  0 <= p ->
  tiff_header (from p data) = Some (order, offset0) ->
  DecodeFile DecodeTag fuel (mkFile data p re)
  = walk WalkState (DecodeFile_iter DecodeTag order offset0) fuel
      (DecodeFile_start data offset0).
Proof.
  intros Hp Hh. apply tiff_header_inv in Hh as (Hm & Hg & Ho).
  pose proof (marker_order_length _ _ Hm) as L2.
  unfold magic in Hg. unfold first_offset in Ho.
  rewrite from_from in Hg, Ho by lia.
  destruct (List.length (firstn 2 (from (p + 2) data)) =? 2)%nat eqn:M2; [|discriminate].
  destruct (List.length (firstn 4 (from (p + 4) data)) =? 4)%nat eqn:O4; [|discriminate].
  apply Nat.eqb_eq in M2, O4.
  assert (int16 (Uint16 order (firstn 2 (from (p + 2) data))) = 42) as Hg' by congruence.
  assert (Uint32 order (firstn 4 (from (p + 4) data)) = offset0) as Ho' by congruence.
  clear Hg Ho.
  unfold DecodeFile.
  rewrite File_ReadFull_ok by exact L2. cbn [content pos read_err].
  unfold marker_order in Hm. rewrite Hm.
  change (p + Z.of_nat 2) with (p + 2).
  rewrite File_ReadFull_ok by exact M2. cbn [content pos read_err].
  unfold binary_Read_int16.
  rewrite io_ReadFull_ok; cbn [s i bytes_NewReader];
    rewrite firstn_firstn_from_0; [|exact M2].
  rewrite Hg'. change (42 =? 42) with true. cbn [orb negb].
  replace (p + 2 + Z.of_nat 2) with (p + 4) by lia.
  rewrite File_ReadFull_ok by exact O4. cbn [content pos read_err].
  unfold binary_Read_uint32.
  rewrite io_ReadFull_ok; cbn [s i bytes_NewReader];
    rewrite firstn_firstn_from_0; [|exact O4].
  rewrite Ho'. unfold File_Seek.
  pose proof (Uint32_range order (firstn 4 (from (p + 4) data))) as R. rewrite Ho' in R.
  destruct (offset0 <? 0) eqn:E; [apply Z.ltb_lt in E; lia|].
  reflexivity.
Qed.
End ChainFacts.

(** ** Printing *)

Section PrintingFacts.
Variable Tag_String : ptr Tag -> option string.

Lemma Dir_String_tags_shape (tags : list (ptr Tag)) :
  forall s out,
    Dir_String_tags Tag_String tags s = Some out
    <-> exists xs,
        Forall2 (fun t x => Tag_String t = Some x) tags xs
        /\ out = String.append s (each_with_comma xs).
Proof.
  induction tags as [|t tags IH]; intros s out; simpl.
  - split.
    + intros H. injection H as <-. exists []. split; [constructor|].
      simpl. induction s as [|c s IHs]; simpl; congruence.
    + intros (xs & F & ->). inversion F; subst. simpl. f_equal.
      induction s as [|c s IHs]; simpl; congruence.
  - split.
    + destruct (Tag_String t) as [ts|] eqn:E; [|discriminate].
      intros H. apply IH in H as (xs & F & ->). exists (ts :: xs).
      split; [now constructor|]. simpl. now rewrite !string_append_assoc.
    + intros (xs & F & ->). inversion F as [|t0 x tags0 xs0 Ex F']; subst.
      rewrite Ex. apply IH. exists xs0. split; [assumption|].
      simpl. now rewrite !string_append_assoc.
Qed.

Lemma Tiff_String_dirs_shape (dirs : list (ptr Dir)) :
  forall buf out,
    Tiff_String_dirs Tag_String dirs buf = Some out
    <-> exists xs,
        Forall2 (fun d x => Dir_String Tag_String d = Some x) dirs xs
        /\ out = String.append buf (each_with_comma xs).
Proof.
  induction dirs as [|d dirs IH]; intros buf out; simpl.
  - split.
    + intros H. injection H as <-. exists []. split; [constructor|].
      simpl. induction buf as [|c s IHs]; simpl; congruence.
    + intros (xs & F & ->). inversion F; subst. simpl. f_equal.
      induction buf as [|c s IHs]; simpl; congruence.
  - split.
    + destruct (Dir_String Tag_String d) as [ds|] eqn:E; [|discriminate].
      intros H. apply IH in H as (xs & F & ->). exists (ds :: xs).
      split; [now constructor|]. simpl. now rewrite !string_append_assoc.
    + intros (xs & F & ->). inversion F as [|d0 x dirs0 xs0 Ex F']; subst.
      rewrite Ex. apply IH. exists xs0. split; [assumption|].
      simpl. now rewrite !string_append_assoc.
Qed.

(** X11. What the printers print. [Dir.String] of a directory gives
    "Dir{", then each tag's string followed by ", ", then "}", and
    [Tiff.String] gives "Tiff{", each directory's string followed by ", ",
    and "}"; they give this whenever every tag, and every directory, prints,
    and otherwise they do not return (a nil [Tiff] or [Dir] is dereferenced,
    or a tag's printer fails). *)
Theorem String_format :
  (forall d out,
      Dir_String Tag_String (Some d) = Some out
      <-> exists xs,
          Forall2 (fun t x => Tag_String t = Some x) (Tags d) xs
          /\ out = String.append "Dir{" (String.append (each_with_comma xs) "}"))
  /\ (forall tf out,
        Tiff_String Tag_String (Some tf) = Some out
        <-> exists xs,
            Forall2 (fun d x => Dir_String Tag_String d = Some x) (Dirs tf) xs
            /\ out = String.append "Tiff{" (String.append (each_with_comma xs) "}"))
  /\ Dir_String Tag_String None = None
  /\ Tiff_String Tag_String None = None.
Proof.
  split; [|split; [|split; reflexivity]].
  - intros d out. unfold Dir_String. split.
    + destruct (Dir_String_tags Tag_String (Tags d) "Dir{") as [s0|] eqn:E; [|discriminate].
      intros H. injection H as <-.
      apply Dir_String_tags_shape in E as (xs & F & ->).
      exists xs. split; [assumption|]. now rewrite string_append_assoc.
    + intros (xs & F & ->).
      assert (Dir_String_tags Tag_String (Tags d) "Dir{"
              = Some (String.append "Dir{" (each_with_comma xs))) as E
          by (apply Dir_String_tags_shape; eauto).
      rewrite E. now rewrite string_append_assoc.
  - intros tf out. unfold Tiff_String. split.
    + destruct (Tiff_String_dirs Tag_String (Dirs tf) "Tiff{") as [s0|] eqn:E;
        [|discriminate].
      intros H. injection H as <-.
      apply Tiff_String_dirs_shape in E as (xs & F & ->).
      exists xs. split; [assumption|]. now rewrite string_append_assoc.
    + intros (xs & F & ->).
      assert (Tiff_String_dirs Tag_String (Dirs tf) "Tiff{"
              = Some (String.append "Tiff{" (each_with_comma xs))) as E
          by (apply Tiff_String_dirs_shape; eauto).
      rewrite E. now rewrite string_append_assoc.
Qed.

Lemma Forall2_total {A X : Type} (f : A -> option X) (l : list A) :
  (forall a, In a l -> f a <> None) ->
  exists xs, Forall2 (fun a x => f a = Some x) l xs.
Proof.
  induction l as [|a l IH]; intros H.
  - exists []. constructor.
  - destruct IH as [xs F]; [intros a0 Ha; apply H; now right|].
    destruct (f a) as [x|] eqn:E; [|exfalso; apply (H a); [now left|assumption]].
    exists (x :: xs). now constructor.
Qed.

(** X12. A decoded [Tiff] can be printed: on what [Decode] or [DecodeFile]
    returns, with any tag decoder, [Tiff.String] returns whenever the
    printer of tags returns on every tag of every directory; it meets no nil
    directory. *)
Theorem decoded_Tiff_prints (DecodeTag : TagDecoder) (fuel : nat) (r : io_Reader)
  (f : File) (t : Tiff) (e : option error) :
  Decode DecodeTag fuel r = Some (Some t, e)
  \/ DecodeFile DecodeTag fuel f = Some (Some t, e) ->
  (forall d tag, In (Some d) (Dirs t) -> In tag (Tags d) -> Tag_String tag <> None) ->
  exists out, Tiff_String Tag_String (Some t) = Some out.
Proof.
  intros H Hp.
  assert (Forall (fun d : ptr Dir => d <> None) (Dirs t)) as HF.
  { destruct H as [H|H];
      [apply Decode_result_shape in H | apply DecodeFile_result_shape in H];
      destruct H as [[e1 H]|(t1 & H & F)]; try discriminate;
      injection H as -> _; exact F. }
  rewrite Forall_forall in HF.
  destruct (Forall2_total (Dir_String Tag_String) (Dirs t)) as [xs F].
  { intros [d|] Hin; [|now apply HF in Hin].
    destruct (Forall2_total Tag_String (Tags d)) as [ys Fy]; [eauto|].
    assert (Dir_String_tags Tag_String (Tags d) "Dir{"
            = Some (String.append "Dir{" (each_with_comma ys))) as E
        by (apply Dir_String_tags_shape; eauto).
    unfold Dir_String. rewrite E. discriminate. }
  assert (Tiff_String_dirs Tag_String (Dirs t) "Tiff{"
          = Some (String.append "Tiff{" (each_with_comma xs))) as E
      by (apply Tiff_String_dirs_shape; eauto).
  unfold Tiff_String. rewrite E. eauto.
Qed.
End PrintingFacts.

(** ** Chains of directories on both entry points *)

(** The walk of [DecodeFile] follows the walk of [Decode] turn by turn as
    long as the directories are local to the window and each one begins
    where the one before ended. *)
Lemma packed_walks_agree (data : list byte) (order : ByteOrder) (offset0 : Z) :
  tiff_header data = Some (order, offset0) ->
  (forall n st,
      head_of_iteration WalkState (Decode_iter DecodeTag order) n
        (Decode_start data offset0) = Some st ->
      w_offset st <> 0 ->
      forallb (entry_local order offset0) (dir_entries order data (w_offset st)) = true
      /\ (n <> 0%nat -> w_offset st = i (w_buf st))) ->
  forall n st,
    head_of_iteration WalkState (Decode_iter DecodeTag order) n
      (Decode_start data offset0) = Some st ->
    exists stf,
      head_of_iteration WalkState (DecodeFile_iter DecodeTag order offset0) n
        (DecodeFile_start data offset0) = Some stf
      /\ w_offset stf = w_offset st /\ w_prev stf = w_prev st
      /\ w_Dirs stf = w_Dirs st
      /\ (w_offset st <> 0 ->
          w_buf stf = into_window offset0 (mkReader data (w_offset st))
          /\ offset0 <= w_offset st).
Proof.
  intros Hh Hpacked.
  pose proof (tiff_header_inv _ _ _ Hh) as (_ & _ & Ho).
  apply first_offset_range in Ho.
  induction n as [|n IH]; intros st H.
  - simpl in H. injection H as <-. exists (DecodeFile_start data offset0).
    rewrite DecodeFile_start_window. cbn. repeat split; lia.
  - replace (S n) with (n + 1)%nat in H |- * by lia. rewrite head_add in H |- *.
    destruct (head_of_iteration WalkState (Decode_iter DecodeTag order) n
                (Decode_start data offset0)) as [st0|] eqn:H0; [|discriminate].
    destruct (IH st0 eq_refl) as (stf & Hf & Eo & Ep & Ed & Hb). rewrite Hf.
    simpl in H |- *.
    destruct (Decode_iter DecodeTag order st0) as [st1|res] eqn:E; [|discriminate].
    injection H as <-.
    destruct (Decode_reaches_inv _ _ _ _ _ _ Hh H0) as (Hs & Hge & Hp).
    pose proof E as E'.
    apply Decode_iter_running in E' as (buf' & d & off & ED & -> & Hn & Hne).
    rewrite Hs in ED.
    destruct (Hb Hn) as (Hw & Hbase).
    destruct (Hpacked n st0 H0 Hn) as (Hloc & _).
    pose proof (DecodeDir_ok_reader _ _ _ _ _ _ _ ED) as (Es & Hi & R & L).
    cbn [s i] in Es, Hi, L. apply firstn_from_full in L; [|lia|lia].
    unfold DecodeFile_iter. rewrite Eo, Ep, Ed, Hw.
    destruct (w_offset st0 =? 0) eqn:E0; [apply Z.eqb_eq in E0; contradiction|].
    rewrite DecodeDir_window; cbn [s i]; try lia; [|exact Hloc].
    rewrite ED.
    destruct (off =? w_prev st0) eqn:Eq; [apply Z.eqb_eq in Eq; contradiction|].
    eexists. split; [reflexivity|]. cbn [w_buf w_offset w_prev w_Dirs].
    repeat split.
    + destruct (Hpacked (n + 1)%nat (mkWalk buf' off off (w_Dirs st0 ++ [d]))) as (_ & Hpk).
      { rewrite head_add, H0. simpl. rewrite E. reflexivity. }
      { assumption. }
      cbn [w_offset w_buf] in Hpk. specialize (Hpk ltac:(lia)).
      unfold into_window. cbn [s i]. rewrite Es, <- Hpk. reflexivity.
    + destruct (Hpacked (n + 1)%nat (mkWalk buf' off off (w_Dirs st0 ++ [d]))) as (_ & Hpk).
      { rewrite head_add, H0. simpl. rewrite E. reflexivity. }
      { assumption. }
      cbn [w_offset w_buf] in Hpk. specialize (Hpk ltac:(lia)). lia.
Qed.

(** X13. Chains of several directories. When [Decode] accepts a stream in
    which every directory of the chain has only entries whose values are
    inline or stored at or after the first directory's offset, and every
    directory after the first begins exactly where the one before ended,
    [DecodeFile] returns the same [Tiff] as [Decode]. The tag decoder is the
    one modelled from the spec. *)
Theorem fast_decode_agrees_on_packed_local_chain (data : list byte)
  (order : ByteOrder) (offset0 : Z) (fuel : nat) (t : Tiff) :
  tiff_header data = Some (order, offset0) ->
  Decode DecodeTag fuel (stream data) = Some (Some t, None) ->
  (forall n st,
      head_of_iteration WalkState (Decode_iter DecodeTag order) n
        (Decode_start data offset0) = Some st ->
      w_offset st <> 0 ->
      forallb (entry_local order offset0) (dir_entries order data (w_offset st)) = true
      /\ (n <> 0%nat -> w_offset st = i (w_buf st))) ->
  DecodeFile DecodeTag fuel (os_Open data) = Some (Some t, None).
Proof.
  intros Hh HD Hpacked.
  rewrite (Decode_after_header _ _ _ _ _ Hh) in HD.
  apply walk_returned_at in HD as (n & st & Hn & Hhead & Hret).
  apply Decode_iter_returned in Hret as [[E0 Hret]|[_ [e1 Hret]]]; [|discriminate].
  injection Hret as ->.
  destruct (packed_walks_agree _ _ _ Hh Hpacked n st Hhead)
    as (stf & Hf & Eo & _ & Ed & _).
  rewrite (DecodeFile_after_header _ _ _ _ _ Hh).
  apply (walk_returns_at_head _ _ n fuel _ stf); [exact Hf| |exact Hn].
  unfold DecodeFile_iter. rewrite Eo, E0, Ed. reflexivity.
Qed.

(** ** The further theorems on the example streams *)

Lemma DecodeFile_terminates_witness :
  exists res, DecodeFile DecodeTag 20 (os_Open stream_two_cycle) = Some res.
Proof.
  destruct (DecodeFile_terminates DecodeTag (os_Open stream_two_cycle)) as [res H].
  exists res. apply H. vm_compute. lia.
Defined.

Lemma result_is_error_or_tiff_witness :
  Forall (fun d : ptr Dir => d <> None)
    (Dirs (mkTiff [Some (mkDir [Some (mkTag 256 3 1 [IntVal 100])])] LittleEndian)).
Proof.
  assert (Decode DecodeTag 1 (stream stream_inline)
          = Some (Some (mkTiff [Some (mkDir [Some (mkTag 256 3 1 [IntVal 100])])]
                               LittleEndian), None)) as E
      by (vm_compute; reflexivity).
  destruct (proj1 (result_is_error_or_tiff DecodeTag) 1%nat (stream stream_inline) _ E)
    as [[e H]|(t & H & F)]; [discriminate H|].
  injection H as <-. exact F.
Defined.

Lemma DecodeFile_directories_bounded_witness :
  6 * len (Dirs (mkTiff [Some (mkDir []); Some (mkDir [])] LittleEndian))
  <= len (content (os_Open stream_far)).
Proof.
  apply (DecodeFile_directories_bounded DecodeTag 2 (os_Open stream_far) _ None).
  reflexivity.
Defined.

Lemma no_directory_iff_zero_offset_witness :
  (Dirs (mkTiff [] BigEndian) = [] <-> 0 = 0)
  /\ (Dirs (mkTiff [Some (mkDir [Some (mkTag 256 3 1 [IntVal 100])])] LittleEndian) = []
      <-> 8 = 0).
Proof.
  split.
  - apply (no_directory_iff_zero_offset DecodeTag stream_no_dir BigEndian 0 0 _ None);
      [reflexivity | left; reflexivity].
  - apply (no_directory_iff_zero_offset DecodeTag stream_inline LittleEndian 8 1 _ None);
      [reflexivity | right; reflexivity].
Defined.

Lemma decoded_stream_signature_witness :
  (8 <= len stream_inline /\ firstn 4 stream_inline = B [73; 73; 42; 0]%N)
  /\ exists e1 e2,
      Decode DecodeTag 0 (stream stream_bad_magic) = Some (None, Some e1)
      /\ DecodeFile DecodeTag 0 (os_Open stream_bad_magic) = Some (None, Some e2).
Proof.
  split.
  - apply (proj1 (decoded_stream_signature DecodeTag stream_inline) 1%nat
             (mkTiff [Some (mkDir [Some (mkTag 256 3 1 [IntVal 100])])] LittleEndian)
             None).
    left. reflexivity.
  - apply (proj2 (decoded_stream_signature DecodeTag stream_bad_magic)).
    right. split; vm_compute; discriminate.
Defined.

Lemma truncated_header_errors_witness :
  (Decode DecodeTag 0 (stream stream_marker_only) = Some (None, Some ErrMagic)
   /\ DecodeFile DecodeTag 0 (os_Open stream_marker_only)
      = Some (None, Some (errors_New "tiff: could not read special tiff marker")))
  /\ (Decode DecodeTag 0 (stream stream_no_offset)
      = Some (None, Some (errors_New "tiff: could not read offset to first IFD"))
      /\ DecodeFile DecodeTag 0 (os_Open stream_no_offset)
         = Some (None, Some (errors_New "tiff: could not read offset of 1st IFD"))).
Proof.
  split.
  - apply (proj1 (truncated_header_errors DecodeTag stream_marker_only)).
    + right. reflexivity.
    + vm_compute. reflexivity.
  - apply (proj2 (truncated_header_errors DecodeTag stream_no_offset)).
    + right. reflexivity.
    + vm_compute. reflexivity.
Defined.

Lemma DecodeDir_truncated_witness :
  snd (DecodeDir DecodeTag (bytes_NewReader dir_one_byte) LittleEndian 0)
  = (None, 0, Some (errors_New "tiff: failed to read IFD tag count: unexpected EOF"))
  /\ snd (DecodeDir DecodeTag (bytes_NewReader dir_short_offset) LittleEndian 0)
     = (None, 0,
        Some (errors_New "tiff: falied to read offset to next IFD: unexpected EOF"))
  /\ snd (DecodeDir DecodeTag (bytes_NewReader []) LittleEndian 0)
     = (None, 0, Some (errors_New "tiff: failed to read IFD tag count: EOF")).
Proof.
  split; [|split].
  - apply (proj1 (proj2 (DecodeDir_truncated DecodeTag (bytes_NewReader dir_one_byte)
                           LittleEndian 0 ltac:(cbn; lia)))).
    reflexivity.
  - apply (proj2 (proj2 (proj2 (DecodeDir_truncated DecodeTag
                                  (bytes_NewReader dir_short_offset)
                                  LittleEndian 0 ltac:(cbn; lia)))
                          (firstn 2 dir_short_offset) []
                          (mkReader dir_short_offset 2)
                          eq_refl (tags_decoded_nil _ _ _ _) eq_refl)).
    vm_compute. split; reflexivity.
  - apply (proj1 (DecodeDir_truncated DecodeTag (bytes_NewReader [])
                    LittleEndian 0 ltac:(cbn; lia))).
    vm_compute. discriminate.
Defined.

Lemma DecodeFile_offset_past_end_witness :
  DecodeFile DecodeTag 0 (os_Open stream_past_end)
  = Some (None, Some (errors_New "tiff: failed to read IFD tag count: EOF")).
Proof.
  apply (DecodeFile_offset_past_end DecodeTag stream_past_end LittleEndian 64).
  - reflexivity.
  - lia.
  - vm_compute. discriminate.
Defined.

Lemma Decode_revisit_never_returns_witness :
  Decode DecodeTag 1000 (stream stream_three_cycle) = None.
Proof.
  apply (Decode_revisit_never_returns DecodeTag stream_three_cycle LittleEndian 8
           0 3 (Decode_start stream_three_cycle 8)
           (mkWalk (mkReader stream_three_cycle 26) 8 8
              [Some (mkDir []); Some (mkDir []); Some (mkDir [])])).
  - vm_compute. reflexivity.
  - reflexivity.
  - vm_compute. reflexivity.
  - lia.
  - reflexivity.
Defined.

Lemma DecodeFile_offsets_from_file_start_witness :
  DecodeFile DecodeTag 1 (mkFile file_with_prefix 4 None)
  = walk WalkState (DecodeFile_iter DecodeTag LittleEndian 8) 1
      (DecodeFile_start file_with_prefix 8).
Proof.
  apply (DecodeFile_offsets_from_file_start DecodeTag file_with_prefix 4 None LittleEndian 8).
  - lia.
  - reflexivity.
Defined.

Lemma decoded_Tiff_prints_witness :
  exists out,
    Tiff_String (fun _ => Some "tag"%string)
      (Some (mkTiff [Some (mkDir [Some (mkTag 256 3 1 [IntVal 100])])] LittleEndian))
    = Some out.
Proof.
  apply (decoded_Tiff_prints (fun _ => Some "tag"%string) DecodeTag 1
           (stream stream_inline) (os_Open stream_inline) _ None).
  - left. reflexivity.
  - intros d tag _ _. discriminate.
Defined.

Lemma String_format_witness :
  Dir_String (fun _ => Some "tag"%string) (Some (mkDir [None; None]))
  = Some "Dir{tag, tag, }"%string.
Proof.
  apply (proj1 (String_format (fun _ => Some "tag"%string))).
  exists ["tag"%string; "tag"%string].
  split; [repeat constructor | reflexivity].
Defined.

Lemma fast_decode_packed_witness :
  DecodeFile DecodeTag 2 (os_Open stream_packed)
  = Some (Some (mkTiff
                  [Some (mkDir [Some (mkTag 256 3 1 [IntVal 100])]);
                   Some (mkDir
                           [Some (mkTag 270 2 6
                                    [IntVal 104; IntVal 101; IntVal 108;
                                     IntVal 108; IntVal 111; IntVal 0])])]
                  LittleEndian), None).
Proof.
  apply (fast_decode_agrees_on_packed_local_chain stream_packed LittleEndian 8 2).
  - vm_compute. reflexivity.
  - vm_compute. reflexivity.
  - assert (head_of_iteration WalkState (Decode_iter DecodeTag LittleEndian) 1
              (Decode_start stream_packed 8)
            = Some (mkWalk (mkReader stream_packed 26) 26 26
                      [Some (mkDir [Some (mkTag 256 3 1 [IntVal 100])])])) as E1
        by (vm_compute; reflexivity).
    assert (head_of_iteration WalkState (Decode_iter DecodeTag LittleEndian) 2
              (Decode_start stream_packed 8)
            = Some (mkWalk (mkReader stream_packed 44) 0 0
                      [Some (mkDir [Some (mkTag 256 3 1 [IntVal 100])]);
                       Some (mkDir
                               [Some (mkTag 270 2 6
                                        [IntVal 104; IntVal 101; IntVal 108;
                                         IntVal 108; IntVal 111; IntVal 0])])])) as E2
        by (vm_compute; reflexivity).
    intros n st H Hn. destruct n as [|[|[|n]]].
    + injection H as <-. split; [vm_compute; reflexivity | intros F; now elim F].
    + rewrite E1 in H. injection H as <-.
      split; [vm_compute; reflexivity | intros _; reflexivity].
    + rewrite E2 in H. injection H as <-. now elim Hn.
    + change (S (S (S n))) with (2 + S n)%nat in H. rewrite head_add, E2 in H.
      discriminate H.
Defined.

(** ** Read faults *)

Lemma DecodeFile_fault_irrelevant (D : TagDecoder) (fuel : nat) (c : list byte)
  (p : Z) (re : option error) :
  DecodeFile D fuel (mkFile c p re) = DecodeFile D fuel (mkFile c p None).
Proof.
  destruct re as [e|]; [|reflexivity].
  unfold DecodeFile, File_ReadFull. cbn [content pos read_err].
  destruct (List.length (firstn 2 (from p c)) =? 2)%nat;
    [|destruct (List.length (firstn 2 (from p c)) =? 0)%nat; reflexivity].
  destruct (if string_eq (firstn 2 (from p c)) "II" then Some LittleEndian
            else if string_eq (firstn 2 (from p c)) "MM" then Some BigEndian
                 else None) as [order|]; [|reflexivity].
  set (p2 := p + len (firstn 2 (from p c))).
  destruct (List.length (firstn 2 (from p2 c)) =? 2)%nat;
    [|destruct (List.length (firstn 2 (from p2 c)) =? 0)%nat; reflexivity].
  destruct (binary_Read_int16 _ order) as [[buf1 sp] err].
  destruct (_ || _); [reflexivity|].
  set (p4 := p2 + len (firstn 2 (from p2 c))).
  destruct (List.length (firstn 4 (from p4 c)) =? 4)%nat;
    [|destruct (List.length (firstn 4 (from p4 c)) =? 0)%nat; reflexivity].
  destruct (binary_Read_uint32 _ order) as [[buf2 off] [e0|]]; [reflexivity|].
  unfold File_Seek, File_ReadAll. cbn [content pos read_err].
  destruct (off <? 0); reflexivity.
Qed.

(** C8, at the failing input. [DecodeFile] drops the error of
    [ioutil.ReadAll]: a file whose reads end in a fault decodes exactly like
    the same file read without fault. On the 8-byte header with
    first-directory offset 0, read from a source that fails after these
    bytes, [Decode] aborts with "tiff: could not read data" while
    [DecodeFile] returns a [Tiff] and no error. *)
Theorem DecodeFile_drops_read_error (D : TagDecoder) (fuel : nat) (e : error) :
  Decode D fuel (mkStream stream_no_dir (Some e))
  = Some (None, Some (errors_New "tiff: could not read data"))
  /\ DecodeFile D fuel (mkFile stream_no_dir 0 (Some e))
     = Some (Some (mkTiff [] BigEndian), None)
  /\ (forall c p,
        DecodeFile D fuel (mkFile c p (Some e)) = DecodeFile D fuel (mkFile c p None)).
Proof.
  split; [reflexivity|]. split.
  - rewrite DecodeFile_fault_irrelevant.
    change (mkFile stream_no_dir 0 None) with (os_Open stream_no_dir).
    rewrite (DecodeFile_after_header D fuel stream_no_dir BigEndian 0) by reflexivity.
    destruct fuel; reflexivity.
  - intros c p. apply DecodeFile_fault_irrelevant.
Qed.

(** ** Values stored before the window *)

Lemma nonlocal_entry_forallb (order : ByteOrder) (base : Z) (l : list Entry) :
  (exists e, In e l /\ 4 < valLen e /\ ValOffset order e < base) ->
  forallb (entry_local order base) l = false.
Proof.
  intros (e & Hin & Hv & Hb).
  destruct (forallb _ _) eqn:E; [|reflexivity].
  rewrite forallb_forall in E. apply E in Hin. unfold entry_local in Hin.
  apply orb_true_iff in Hin as [H|H]; apply Z.leb_le in H; lia.
Qed.

(** A complete entry whose value lies before the window cannot be resolved
    by [DecodeTag]. *)
Lemma DecodeTag_unresolvable (r : Reader) (order : ByteOrder) (base : Z) :
  List.length (firstn 12 (from (i r) (s r))) = 12%nat ->
  entry_local order base (parse_entry order (firstn 12 (from (i r) (s r)))) = false ->
  DecodeTag r order base = (12%nat, (None, Some ErrUnresolvableReference)).
Proof.
  intros L Hloc. unfold DecodeTag. rewrite io_ReadFull_ok by assumption. rewrite L.
  unfold entry_local in Hloc. apply orb_false_iff in Hloc as [Hv Hb].
  rewrite Hv. apply Z.leb_gt in Hb.
  replace (_ - base <? 0) with true by (symmetry; apply Z.ltb_lt; lia).
  reflexivity.
Qed.

Lemma DecodeDir_tags_nonlocal_fails (order : ByteOrder) (base : Z) (k : nat) :
  forall r acc,
    forallb (entry_local order base) (entries_from order (s r) (i r) k) = false ->
    exists r' tags' err,
      DecodeDir_tags DecodeTag k r order base acc = (r', tags', Some err).
Proof.
  induction k as [|k IH]; intros r acc Hloc; [discriminate|].
  cbn [entries_from forallb] in Hloc. cbn [DecodeDir_tags].
  destruct (DecodeTag r order base) as [n [t [e|]]] eqn:E; [eauto|].
  apply DecodeTag_ok_consumed in E as E'. destruct E' as [-> L].
  destruct (entry_local order base
              (parse_entry order (firstn 12 (from (i r) (s r))))) eqn:E0;
    cbn [andb] in Hloc.
  - apply IH. exact Hloc.
  - rewrite DecodeTag_unresolvable in E by assumption. discriminate.
Qed.

(** A directory with such an entry does not decode in the window, whatever
    else it holds. *)
Lemma DecodeDir_nonlocal_fails (order : ByteOrder) (base : Z) (r : Reader) :
  forallb (entry_local order base) (dir_entries order (s r) (i r)) = false ->
  exists r' err, DecodeDir DecodeTag r order base = (r', (None, 0, Some err)).
Proof.
  intros Hloc. unfold DecodeDir, binary_Read_int16, dir_entries in *.
  destruct (io_ReadFull r 2) as [[r1 bs] [e|]] eqn:E1; [eauto|].
  apply io_ReadFull_inv in E1 as (-> & -> & _).
  destruct (DecodeDir_tags_nonlocal_fails order base _ (Reader_advance r 2) [] Hloc)
    as (r' & tags' & err & ->).
  eauto.
Qed.

Lemma entries_from_window (order : ByteOrder) (base : Z) (data : list byte)
  (k : nat) :
  forall c,
    0 <= base -> 0 <= c ->
    entries_from order (from base data) c k = entries_from order data (base + c) k.
Proof.
  induction k as [|k IH]; intros c Hb Hc; [reflexivity|].
  cbn [entries_from]. rewrite from_from by lia. rewrite IH by lia.
  do 2 f_equal. lia.
Qed.

Lemma dir_entries_window (order : ByteOrder) (base c : Z) (data : list byte) :
  0 <= base -> 0 <= c ->
  dir_entries order (from base data) c = dir_entries order data (base + c).
Proof.
  intros Hb Hc. unfold dir_entries. rewrite from_from by lia.
  rewrite entries_from_window by lia. f_equal. lia.
Qed.

Lemma DecodeFile_head_index (order : ByteOrder) (offset0 : Z) (n : nat) :
  forall st0 st,
    0 <= i (w_buf st0) ->
    head_of_iteration WalkState (DecodeFile_iter DecodeTag order offset0) n st0
    = Some st ->
    0 <= i (w_buf st).
Proof.
  induction n as [|n IH]; intros st0 st H0 H; simpl in H.
  - injection H as <-. assumption.
  - destruct (DecodeFile_iter DecodeTag order offset0 st0) as [st1|res] eqn:E;
      [|discriminate].
    apply DecodeFile_iter_running in E as (buf' & d & off & ED & -> & _ & _).
    apply DecodeDir_ok_reader in ED as (_ & Hi & _ & _).
    apply (IH _ _) in H; [assumption|]. cbn [w_buf]. lia.
Qed.

(** While [Decode] succeeds, every turn of its loop at a non-zero offset
    decodes a directory. *)
Lemma Decode_success_decodes (data : list byte) (order : ByteOrder) (offset0 : Z)
  (fuel : nat) (t : Tiff) (k : nat) (st : WalkState) :
  tiff_header data = Some (order, offset0) ->
  walk WalkState (Decode_iter DecodeTag order) fuel (Decode_start data offset0)
  = Some (Some t, None) ->
  head_of_iteration WalkState (Decode_iter DecodeTag order) k
    (Decode_start data offset0) = Some st ->
  w_offset st <> 0 ->
  exists buf' d off,
    DecodeDir DecodeTag (mkReader data (w_offset st)) order 0 = (buf', (d, off, None)).
Proof.
  intros Hh HD H Hn.
  destruct (Decode_reaches_inv _ _ _ _ _ _ Hh H) as (Hs & _ & _).
  apply (walk_more_fuel _ _ fuel (k + fuel)) in HD; [|lia].
  rewrite (walk_from_head _ _ _ _ _ _ H) in HD.
  destruct fuel as [|fuel]; simpl in HD;
    destruct (Decode_iter DecodeTag order st) as [st'|res] eqn:E; try discriminate;
    try (injection HD as ->;
         apply Decode_iter_returned in E as [[E0 _]|[_ [e1 E]]];
         [contradiction | discriminate]).
  apply Decode_iter_running in E as (buf' & d & off & ED & _). rewrite Hs in ED. eauto.
Qed.

Lemma packed_walks_agree_upto (data : list byte) (order : ByteOrder) (offset0 : Z)
  (k : nat) :
  tiff_header data = Some (order, offset0) ->
  (forall n st,
      (n < k)%nat ->
      head_of_iteration WalkState (Decode_iter DecodeTag order) n
        (Decode_start data offset0) = Some st ->
      w_offset st <> 0 ->
      forallb (entry_local order offset0) (dir_entries order data (w_offset st)) = true) ->
  (forall n st,
      (0 < n <= k)%nat ->
      head_of_iteration WalkState (Decode_iter DecodeTag order) n
        (Decode_start data offset0) = Some st ->
      w_offset st <> 0 ->
      w_offset st = i (w_buf st)) ->
  forall n st,
    (n <= k)%nat ->
    head_of_iteration WalkState (Decode_iter DecodeTag order) n
      (Decode_start data offset0) = Some st ->
    exists stf,
      head_of_iteration WalkState (DecodeFile_iter DecodeTag order offset0) n
        (DecodeFile_start data offset0) = Some stf
      /\ w_offset stf = w_offset st /\ w_prev stf = w_prev st
      /\ w_Dirs stf = w_Dirs st
      /\ (w_offset st <> 0 ->
          w_buf stf = into_window offset0 (mkReader data (w_offset st))
          /\ offset0 <= w_offset st).
Proof.
  intros Hh Hlocal Hpacked.
  pose proof (tiff_header_inv _ _ _ Hh) as (_ & _ & Ho).
  apply first_offset_range in Ho.
  induction n as [|n IH]; intros st Hk H.
  - simpl in H. injection H as <-. exists (DecodeFile_start data offset0).
    rewrite DecodeFile_start_window. cbn. repeat split; lia.
  - replace (S n) with (n + 1)%nat in H |- * by lia. rewrite head_add in H |- *.
    destruct (head_of_iteration WalkState (Decode_iter DecodeTag order) n
                (Decode_start data offset0)) as [st0|] eqn:H0; [|discriminate].
    destruct (IH st0 ltac:(lia) eq_refl) as (stf & Hf & Eo & Ep & Ed & Hb). rewrite Hf.
    simpl in H |- *.
    destruct (Decode_iter DecodeTag order st0) as [st1|res] eqn:E; [|discriminate].
    injection H as <-.
    destruct (Decode_reaches_inv _ _ _ _ _ _ Hh H0) as (Hs & Hge & Hp).
    pose proof E as E'.
    apply Decode_iter_running in E' as (buf' & d & off & ED & -> & Hn & Hne).
    rewrite Hs in ED.
    destruct (Hb Hn) as (Hw & Hbase).
    pose proof (Hlocal n st0 ltac:(lia) H0 Hn) as Hloc.
    pose proof (DecodeDir_ok_reader _ _ _ _ _ _ _ ED) as (Es & Hi & R & L).
    cbn [s i] in Es, Hi, L. apply firstn_from_full in L; [|lia|lia].
    unfold DecodeFile_iter. rewrite Eo, Ep, Ed, Hw.
    destruct (w_offset st0 =? 0) eqn:E0; [apply Z.eqb_eq in E0; contradiction|].
    rewrite DecodeDir_window; cbn [s i]; try lia; [|exact Hloc].
    rewrite ED.
    destruct (off =? w_prev st0) eqn:Eq; [apply Z.eqb_eq in Eq; contradiction|].
    eexists. split; [reflexivity|]. cbn [w_buf w_offset w_prev w_Dirs].
    assert (off <> 0 -> off = i buf') as Hpk.
    { intros Hoff.
      apply (Hpacked (n + 1)%nat (mkWalk buf' off off (w_Dirs st0 ++ [d])));
        [lia| |assumption].
      rewrite head_add, H0. simpl. rewrite E. reflexivity. }
    repeat split.
    + unfold into_window. cbn [s i]. rewrite Es, <- (Hpk H). reflexivity.
    + specialize (Hpk H). lia.
Qed.

(** Along the walk of [Decode], either the first [m] directories are all
    local to the window, or there is a first one that is not. *)
Lemma first_nonlocal_directory (data : list byte) (order : ByteOrder)
  (offset0 : Z) (m : nat) :
  (forall n st,
      (n < m)%nat ->
      head_of_iteration WalkState (Decode_iter DecodeTag order) n
        (Decode_start data offset0) = Some st ->
      w_offset st <> 0 ->
      forallb (entry_local order offset0) (dir_entries order data (w_offset st)) = true)
  \/ (exists k stk,
        (k < m)%nat
        /\ head_of_iteration WalkState (Decode_iter DecodeTag order) k
             (Decode_start data offset0) = Some stk
        /\ w_offset stk <> 0
        /\ forallb (entry_local order offset0)
             (dir_entries order data (w_offset stk)) = false
        /\ forall n st,
            (n < k)%nat ->
            head_of_iteration WalkState (Decode_iter DecodeTag order) n
              (Decode_start data offset0) = Some st ->
            w_offset st <> 0 ->
            forallb (entry_local order offset0)
              (dir_entries order data (w_offset st)) = true).
Proof.
  induction m as [|m [IH|(k & stk & Hk & Hrest)]].
  - left. intros n st Hn. lia.
  - destruct (head_of_iteration WalkState (Decode_iter DecodeTag order) m
                (Decode_start data offset0)) as [stm|] eqn:Hm.
    + destruct (Z.eq_dec (w_offset stm) 0) as [Ez|Ez].
      * left. intros n st Hn H Ho.
        destruct (Nat.eq_dec n m) as [->|Hne]; [|apply (IH n st); auto; lia].
        rewrite Hm in H. injection H as <-. contradiction.
      * destruct (forallb (entry_local order offset0)
                    (dir_entries order data (w_offset stm))) eqn:El.
        -- left. intros n st Hn H Ho.
           destruct (Nat.eq_dec n m) as [->|Hne]; [|apply (IH n st); auto; lia].
           rewrite Hm in H. injection H as <-. exact El.
        -- right. exists m, stm. repeat split; auto.
    + left. intros n st Hn H Ho.
      destruct (Nat.eq_dec n m) as [->|Hne]; [|apply (IH n st); auto; lia].
      rewrite Hm in H. discriminate.
  - right. exists k, stk. split; [lia|exact Hrest].
Qed.

(** C2, as amended. [DecodeFile] rejects a value stored before its window
    wherever its walk gets to the tag. First, on the walk of [DecodeFile]
    itself: when its cursor arrives at a directory one of whose entries has
    its value out of line at an offset strictly before the first directory's
    offset, [DecodeFile] returns an error. Second, on the chain that [Decode]
    follows: when [Decode] decodes the stream and every directory up to the
    one that holds such an entry begins where the directory before it ended
    (nothing is asked of the first directory), the walk of [DecodeFile] gets
    there, and [DecodeFile] fails with the unresolvable-reference error of
    the tag decoder. *)
Theorem fast_decode_rejects_value_before_window (data : list byte)
  (order : ByteOrder) (offset0 : Z) :
  tiff_header data = Some (order, offset0) ->
  (forall m stf e,
      head_of_iteration WalkState (DecodeFile_iter DecodeTag order offset0) m
        (DecodeFile_start data offset0) = Some stf ->
      w_offset stf <> 0 ->
      In e (dir_entries order data (offset0 + i (w_buf stf))) ->
      4 < valLen e -> ValOffset order e < offset0 ->
      forall fuel, (m <= fuel)%nat ->
        exists err, DecodeFile DecodeTag fuel (os_Open data) = Some (None, Some err))
  /\ (forall fuel t m st e,
        Decode DecodeTag fuel (stream data) = Some (Some t, None) ->
        head_of_iteration WalkState (Decode_iter DecodeTag order) m
          (Decode_start data offset0) = Some st ->
        w_offset st <> 0 ->
        In e (dir_entries order data (w_offset st)) ->
        4 < valLen e -> ValOffset order e < offset0 ->
        (forall n stn,
            (0 < n <= m)%nat ->
            head_of_iteration WalkState (Decode_iter DecodeTag order) n
              (Decode_start data offset0) = Some stn ->
            w_offset stn <> 0 ->
            w_offset stn = i (w_buf stn)) ->
        forall fuel', (m <= fuel')%nat ->
          DecodeFile DecodeTag fuel' (os_Open data)
          = Some (None, Some ErrUnresolvableReference)).
Proof.
  intros Hh.
  pose proof (tiff_header_inv _ _ _ Hh) as (_ & _ & Ho).
  apply first_offset_range in Ho.
  split.
  - intros m stf e H Hn Hin Hv Hb fuel Hf.
    pose proof (DecodeFile_head_inv DecodeTag (from offset0 data) order offset0 m
                  (DecodeFile_start data offset0) stf eq_refl eq_refl H) as (Hs & _).
    pose proof (DecodeFile_head_index order offset0 m
                  (DecodeFile_start data offset0) stf ltac:(cbn; lia) H) as Hi.
    destruct (DecodeDir_nonlocal_fails order offset0 (w_buf stf)) as (r' & err & ED).
    { rewrite Hs, dir_entries_window by lia.
      apply nonlocal_entry_forallb. eauto. }
    exists err. rewrite (DecodeFile_after_header _ _ _ _ _ Hh).
    apply (walk_returns_at_head _ _ m fuel _ stf); [exact H| |exact Hf].
    unfold DecodeFile_iter.
    destruct (w_offset stf =? 0) eqn:E0; [apply Z.eqb_eq in E0; contradiction|].
    rewrite ED. reflexivity.
  - intros fuel t m st e HD H Hn Hin Hv Hb Hpacked fuel' Hf.
    rewrite (Decode_after_header _ _ _ _ _ Hh) in HD.
    destruct (first_nonlocal_directory data order offset0 (S m))
      as [Hall|(k & stk & Hk & Hhead & Hnk & Hbad & Hbefore)].
    { pose proof (nonlocal_entry_forallb order offset0
                    (dir_entries order data (w_offset st))
                    (ex_intro _ e (conj Hin (conj Hv Hb)))) as C.
      rewrite (Hall m st ltac:(lia) H Hn) in C. discriminate C. }
    destruct (packed_walks_agree_upto data order offset0 k Hh Hbefore) with
      (n := k) (st := stk) as (stf & Hfh & Eo & _ & _ & Hw); auto.
    { intros n stn Hnk' Hh' Hn'. apply (Hpacked n stn); auto. lia. }
    destruct (Hw Hnk) as (Hwb & Hbase).
    destruct (Decode_success_decodes _ _ _ _ _ _ _ Hh HD Hhead Hnk)
      as (buf' & d & off & ED).
    pose proof (DecodeDir_ok_reader _ _ _ _ _ _ _ ED) as (_ & _ & _ & L).
    cbn [s i] in L. apply firstn_from_full in L; [|lia|lia].
    destruct (DecodeDir_before_window order offset0 (mkReader data (w_offset stk)) _ _ _
                ltac:(cbn [s i]; lia) ltac:(cbn [s i]; lia) ED Hbad) as (r'' & EW).
    rewrite (DecodeFile_after_header _ _ _ _ _ Hh).
    apply (walk_returns_at_head _ _ k fuel' _ stf); [exact Hfh| |lia].
    unfold DecodeFile_iter. rewrite Eo, Hwb.
    destruct (w_offset stk =? 0) eqn:E0; [apply Z.eqb_eq in E0; contradiction|].
    rewrite EW. reflexivity.
Qed.

Lemma fast_decode_rejects_witness :
  (exists err,
      DecodeFile DecodeTag 1 (os_Open stream_packed_before) = Some (None, Some err))
  /\ DecodeFile DecodeTag 1 (os_Open stream_packed_before)
     = Some (None, Some ErrUnresolvableReference)
  /\ DecodeFile DecodeTag 0 (os_Open stream_before)
     = Some (None, Some ErrUnresolvableReference).
Proof.
  assert (head_of_iteration WalkState (Decode_iter DecodeTag LittleEndian) 1
            (Decode_start stream_packed_before 14)
          = Some (mkWalk (mkReader stream_packed_before 20) 20 20 [Some (mkDir [])]))
    as E1 by (vm_compute; reflexivity).
  split; [|split].
  - eapply (proj1 (fast_decode_rejects_value_before_window
                     stream_packed_before LittleEndian 14 eq_refl) 1%nat).
    + vm_compute. reflexivity.
    + cbn. lia.
    + left. reflexivity.
    + vm_compute. reflexivity.
    + vm_compute. reflexivity.
    + lia.
  - eapply (proj2 (fast_decode_rejects_value_before_window
                     stream_packed_before LittleEndian 14 eq_refl) 2%nat _ 1%nat).
    + vm_compute. reflexivity.
    + exact E1.
    + cbn. lia.
    + left. reflexivity.
    + vm_compute. reflexivity.
    + vm_compute. reflexivity.
    + intros n stn Hn H _.
      assert (n = 1%nat) as -> by lia. rewrite E1 in H. injection H as <-. reflexivity.
    + lia.
  - eapply (proj2 (fast_decode_rejects_value_before_window
                     stream_before LittleEndian 14 eq_refl) 1%nat _ 0%nat).
    + vm_compute. reflexivity.
    + reflexivity.
    + cbn. lia.
    + left. reflexivity.
    + vm_compute. reflexivity.
    + vm_compute. reflexivity.
    + intros n stn Hn. lia.
    + lia.
Defined.
